(** * Synchronized: an exclusive execution queue for asynchronous work

    A shallow embedding of [src/src/synchronized.ts] (class [Synchronized],
    methods [constructor], [execute] and [processQueue]) together with the
    part of the JavaScript run-to-completion semantics the class relies on.

    JavaScript runs one synchronous block at a time.  The blocks that touch
    an instance are
    - a call of [execute] by some caller, which runs up to the return of
      the call, and
    - the resumption of a wrapper (the closure pushed at line 31) after its
      [await asyncFunction()] of line 33, once the awaited promise settled;
      it runs lines 34-38 and whatever [processQueue] does synchronously.
    The continuation of [processQueue] after its own [await fn()] (line 50)
    contains no statement, so it is no block of interest.

    A world is the instance plus what the environment holds of it: the
    wrappers suspended at their await, the promises handed out by [execute]
    and the trace of the statements executed so far.

    [execute] is an [async] method that returns the promise it builds; the
    promise the caller receives adopts the state of that promise and is
    identified with it.

    A work is opaque.  What matters of it is whether the call
    [asyncFunction()] throws or hands back a promise, and how that promise
    settles, which the environment decides.  A work may submit further work
    to the same instance: after it suspended that is a block of its own,
    and from its synchronous part it finds the flag set (line 47 sets it
    before line 50 calls the wrapper), which is the case of [execute] that
    only pushes. *)

From stdpp Require Import gmap list strings pretty.

(** ** Data *)

(** JavaScript values as far as the callers of the test-suite use them:
    the result of a [void] work, a number, a string and an [Error] object
    carrying its message.  The queue never inspects them. *)
Inductive value :=
| VUndefined
| VNumber (n : Z)
| VString (s : string)
| VError (msg : string).

Global Instance value_eq_dec : EqDecision value.
Proof. solve_decision. Defined.

(** How a promise settles. *)
Inductive settlement :=
| Fulfilled (v : value)
| Rejected (e : value).

Global Instance settlement_eq_dec : EqDecision settlement.
Proof. solve_decision. Defined.

(** What the call [asyncFunction()] of line 33 does before the wrapper can
    suspend: it throws, or it hands back a promise (an [async] function
    always does the latter, also when its body throws at once). *)
Inductive work :=
| Throws (e : value)
| ReturnsPromise.

(** The closure pushed at line 31.  It captures [asyncFunction] and the
    [resolve]/[reject] pair of one promise, named here by [wid]. *)
Record wrapper := Wrapper { wid : nat; asyncFunction : work }.

(** The two private fields of the class (lines 15-16). *)
Record Synchronized := Instance { queue : list wrapper; isRunning : bool }.

(** The statements whose order the specification talks about. *)
Inductive action :=
| Push (id : nat)               (* line 31: this.queue.push(wrapper)   *)
| Shift (id : nat)              (* line 48: this.queue.shift()         *)
| Invoke (id : nat)             (* line 33: asyncFunction() is called  *)
| Resolve (id : nat) (v : value)(* line 34: resolve(result)            *)
| Reject (id : nat) (e : value) (* line 36: reject(error)              *)
| Return (id : nat).            (* line 43: execute returns its promise *)

Global Instance action_eq_dec : EqDecision action.
Proof. solve_decision. Defined.

Record world := World {
  this : Synchronized;
  awaiting : list nat;              (* wrappers suspended at line 33 *)
  promises : gmap nat settlement;   (* settled promises; absent = pending *)
  calls : nat;                      (* number of execute calls so far *)
  trace : list action
}.

(** The synchronous blocks the environment can schedule. *)
Inductive event :=
| Execute (f : work)
| Settle (id : nat) (o : settlement).

(** ** Field updates *)

Definition set_this (s : Synchronized) (w : world) : world :=
  World s (awaiting w) (promises w) (calls w) (trace w).

Definition set_awaiting (a : list nat) (w : world) : world :=
  World (this w) a (promises w) (calls w) (trace w).

Definition set_promises (p : gmap nat settlement) (w : world) : world :=
  World (this w) (awaiting w) p (calls w) (trace w).

Definition log (a : action) (w : world) : world :=
  World (this w) (awaiting w) (promises w) (calls w) (trace w ++ [a]).

(** ** Promises *)

(** A promise settles at the first call of its [resolve] or [reject]; any
    later call is ignored (ECMAScript, promise resolving functions). *)
Definition settle (id : nat) (o : settlement) (p : gmap nat settlement)
  : gmap nat settlement :=
  match p !! id with
  | Some _ => p
  | None => <[id := o]> p
  end.

Definition resolve (id : nat) (v : value) (w : world) : world :=
  log (Resolve id v) (set_promises (settle id (Fulfilled v) (promises w)) w).

Definition reject (id : nat) (e : value) (w : world) : world :=
  log (Reject id e) (set_promises (settle id (Rejected e) (promises w)) w).

(** Lines 34 and 36: the wrapper hands the outcome of its await to the
    promise of its own call. *)
Definition deliver (id : nat) (o : settlement) (w : world) : world :=
  match o with
  | Fulfilled v => resolve id v w
  | Rejected e => reject id e w
  end.

(** ** The class *)

(** Lines 18-21. *)
Definition constructor : Synchronized := Instance [] false.

Definition init : world := World constructor [] ∅ 0 [].

(** Lines 46-55, with the body of the wrapper (lines 32-38) run in place
    at [fn()].  [q] is [this.queue] on entry.

    A non-empty queue sets the flag, shifts the head and calls it; the
    wrapper calls [asyncFunction()].  When that throws, the [catch] rejects
    and line 38 calls [processQueue] again, on the rest of the queue.  When
    it returns a promise the wrapper suspends, and so does [processQueue]
    at line 50.  An empty queue clears the flag. *)
Fixpoint processQueue_on (q : list wrapper) (w : world) : world :=
  match q with
  | [] => set_this (Instance [] false) w
  | fn :: rest =>
      let w1 := log (Invoke (wid fn))
                  (log (Shift (wid fn)) (set_this (Instance rest true) w)) in
      match asyncFunction fn with
      | Throws e => processQueue_on rest (reject (wid fn) e w1)
      | ReturnsPromise => set_awaiting (awaiting w1 ++ [wid fn]) w1
      end
  end.

Definition processQueue (w : world) : world :=
  processQueue_on (queue (this w)) w.

(** Lines 34-38, run when the promise awaited by wrapper [id] has settled
    as [o]: the wrapper leaves its await, signals and calls
    [processQueue]. *)
Definition resume (id : nat) (o : settlement) (w : world) : world :=
  processQueue
    (deliver id o (set_awaiting (filter (λ j, j ≠ id) (awaiting w)) w)).

(** Line 31 alone: the push of a wrapper around [f] for call number
    [calls w]. *)
Definition push (f : work) (w : world) : world :=
  World (Instance (queue (this w) ++ [Wrapper (calls w) f]) (isRunning (this w)))
        (awaiting w) (promises w) (S (calls w)) (trace w ++ [Push (calls w)]).

(** Lines 29-44. *)
Definition execute (f : work) (w : world) : world :=
  let w1 := push f w in
  let w2 := if isRunning (this w1) then w1 else processQueue w1 in
  log (Return (calls w)) w2.

(** One synchronous block.  A wrapper can only resume while it is
    suspended, so a [Settle] for any other id is not a block of the
    program and leaves the world as it is. *)
Definition step (w : world) (ev : event) : world :=
  match ev with
  | Execute f => execute f w
  | Settle id o => if decide (id ∈ awaiting w) then resume id o w else w
  end.

Definition run (evs : list event) (w : world) : world :=
  foldl step w evs.

(** * Reading worlds and traces *)

(** The calls whose work was started, in starting order. *)
Fixpoint invoked (tr : list action) : list nat :=
  match tr with
  | [] => []
  | Invoke id :: tr' => id :: invoked tr'
  | _ :: tr' => invoked tr'
  end.

(** How often [resolve], respectively [reject], of call [id] was called. *)
Fixpoint resolves (id : nat) (tr : list action) : nat :=
  match tr with
  | [] => 0
  | Resolve j _ :: tr' => (if decide (j = id) then 1 else 0) + resolves id tr'
  | _ :: tr' => resolves id tr'
  end.

Fixpoint rejects (id : nat) (tr : list action) : nat :=
  match tr with
  | [] => 0
  | Reject j _ :: tr' => (if decide (j = id) then 1 else 0) + rejects id tr'
  | _ :: tr' => rejects id tr'
  end.

(** The execution interval of a work runs from its [Invoke] to the signal
    of its wrapper.  [occupancy cur tr] replays [tr] from a moment at which
    [cur] is the work in its interval; it fails when a work is invoked
    while another is in its interval, or when a signal comes from a work
    that is not, and otherwise gives the work in its interval at the end. *)
Fixpoint occupancy (cur : option nat) (tr : list action) : option (option nat) :=
  match tr with
  | [] => Some cur
  | Invoke i :: tr' =>
      match cur with
      | None => occupancy (Some i) tr'
      | Some _ => None
      end
  | Resolve i _ :: tr' | Reject i _ :: tr' =>
      match cur with
      | Some j => if decide (i = j) then occupancy None tr' else None
      | None => None
      end
  | _ :: tr' => occupancy cur tr'
  end.

Definition exclusive (tr : list action) : bool :=
  bool_decide (is_Some (occupancy None tr)).

(** Position of the first occurrence of an action, if any. *)
Fixpoint position (a : action) (tr : list action) : option nat :=
  match tr with
  | [] => None
  | b :: tr' => if decide (a = b) then Some 0 else S <$> position a tr'
  end.

(** The number of signals call [id] has received. *)
Definition signals (id : nat) (tr : list action) : nat :=
  resolves id tr + rejects id tr.

(** Number of works started so far. *)
Definition started (w : world) : nat := length (invoked (trace w)).

(** What holds whenever control is inside or between blocks, whatever
    the flag says. *)
Record Core (w : world) : Prop := {
  core_fifo :
    invoked (trace w) ++ map wid (queue (this w)) = seq 0 (calls w);
  core_awaiting :
    awaiting w = [] ∨ (0 < started w ∧ awaiting w = [pred (started w)]);
  core_done : ∀ id,
    id < started w → id ∉ awaiting w →
    signals id (trace w) = 1 ∧ is_Some (promises w !! id);
  core_open : ∀ id,
    started w ≤ id ∨ id ∈ awaiting w →
    signals id (trace w) = 0 ∧ promises w !! id = None;
  core_occupancy :
    occupancy None (trace w) = Some (head (awaiting w))
}.

(** What the flag means between blocks. *)
Definition Flag (w : world) : Prop :=
  if isRunning (this w) then awaiting w ≠ []
  else queue (this w) = [] ∧ awaiting w = [].

Definition Inv (w : world) : Prop := Core w ∧ Flag w.

(** [Push] and [Return] are invisible to every reading of the trace. *)
Definition silent (a : action) : Prop :=
  match a with Push _ | Return _ => True | _ => False end.

(** Two worlds that differ only in the promise of call [id] and in the
    signals logged are treated alike. *)
Definition alike (id : nat) (w1 w2 : world) : Prop :=
  this w1 = this w2 ∧ awaiting w1 = awaiting w2 ∧ calls w1 = calls w2 ∧
  invoked (trace w1) = invoked (trace w2) ∧
  ∀ j, j ≠ id → promises w1 !! j = promises w2 !! j.

(** [n] rounds of the environment letting the work in flight settle, as
    [outcome] says, and its wrapper resume. *)
Fixpoint settle_in_turn (outcome : nat → settlement) (n : nat) (w : world) : world :=
  match n with
  | 0 => w
  | S n' =>
      match awaiting w with
      | [] => w
      | id :: _ => settle_in_turn outcome n' (step w (Settle id (outcome id)))
      end
  end.

(** Work left: queued wrappers and wrappers in flight. *)
Definition backlog (w : world) : nat :=
  length (queue (this w)) + length (awaiting w).

(** The statements of one block. *)
Definition block_trace (w : world) (ev : event) : list action :=
  drop (length (trace w)) (trace (step w ev)).

(** The call returns before the work of call [id] is invoked, if it is
    invoked in the block at all. *)
Definition returns_before_start (id : nat) (tr : list action) : Prop :=
  ∃ r, position (Return id) tr = Some r ∧
       ∀ i, position (Invoke id) tr = Some i → r < i.

(** A prompt return, for a submission of [f] in world [w]: on an idle
    instance the call returns before the submitted work is invoked. *)
Definition prompt_return (w : world) (f : work) : Prop :=
  isRunning (this w) = false →
  returns_before_start (calls w) (block_trace w (Execute f)).

(** The works submitted by a run of blocks, in submission order. *)
Fixpoint submitted (evs : list event) : list work :=
  match evs with
  | [] => []
  | Execute f :: evs' => f :: submitted evs'
  | Settle _ _ :: evs' => submitted evs'
  end.

(** The calls whose promise was signalled, in signalling order. *)
Fixpoint signalled (tr : list action) : list nat :=
  match tr with
  | [] => []
  | Resolve id _ :: tr' | Reject id _ :: tr' => id :: signalled tr'
  | _ :: tr' => signalled tr'
  end.

(** Number of wrappers at the head of a queue whose work throws before
    it returns a promise. *)
Fixpoint leading_throws (q : list wrapper) : nat :=
  match q with
  | Wrapper _ (Throws _) :: q' => S (leading_throws q')
  | _ => 0
  end.

(** What a call owes its caller, given how the promise of its work
    settles when the work returns one. *)
Definition own_outcome (f : work) (o : settlement) : settlement :=
  match f with
  | Throws e => Rejected e
  | ReturnsPromise => o
  end.

(** The queue a block works on: the queue it finds, with the wrapper it
    pushes when it is a call of [execute]. *)
Definition block_queue (w : world) (ev : event) : list wrapper :=
  queue (this w) ++
  match ev with
  | Execute f => [Wrapper (calls w) f]
  | Settle _ _ => []
  end.

(** * Callers

    A caller wraps a critical section, an [async] function, in [execute]
    (test/specs/synchronized.spec.ts, lines 78-89 and 117-128).  The body of
    an [async] function never throws into its caller: it returns a promise,
    so for the queue it is a work that returns a promise.

    The synchronous part of the body runs where the wrapper calls it, at
    the [Invoke] of its call.  After that the body advances whenever the
    operation it awaits completes, until it returns or throws; then its
    promise settles and its wrapper resumes (no other task can run in
    between, only microtasks).  A body acts on a state of the caller's
    own. *)

Record client := Client {
  cstate : Type;                (* what the bodies read and write *)
  carg : Type;                  (* what a submission is called with *)
  (* the synchronous part of the body of call [id] *)
  enter : nat → carg → cstate → cstate;
  (* the body of call [id] resumes; [Some o]: it ends, its promise
     settles as [o] *)
  wake : nat → carg → cstate → cstate * option settlement
}.

Record cworld (K : client) := CWorld {
  cw_world : world;
  cw_state : cstate K;
  cw_args : list (carg K)       (* the argument of every call so far *)
}.

Arguments CWorld {K} _ _ _.
Arguments cw_world {K} _.
Arguments cw_state {K} _.
Arguments cw_args {K} _.

Inductive cevent (K : client) :=
| Submit (a : carg K)           (* the caller submits a body *)
| Wake (id : nat).              (* the body of call [id] resumes *)

Arguments Submit {K} _.
Arguments Wake {K} _.

(** The synchronous parts of the bodies a block has invoked, run in the
    order of their invocation. *)
Definition enter_invoked (K : client) (before after : world)
    (args : list (carg K)) (s : cstate K) : cstate K :=
  foldl (λ s id, match args !! id with Some a => enter K id a s | None => s end)
        s (drop (length (invoked (trace before))) (invoked (trace after))).

Definition cstep (K : client) (c : cworld K) (ev : cevent K) : cworld K :=
  match ev with
  | Submit a =>
      let w' := step (cw_world c) (Execute ReturnsPromise) in
      let args' := cw_args c ++ [a] in
      CWorld w' (enter_invoked K (cw_world c) w' args' (cw_state c)) args'
  | Wake id =>
      if decide (id ∈ awaiting (cw_world c)) then
        match cw_args c !! id with
        | Some a =>
            match wake K id a (cw_state c) with
            | (s1, None) => CWorld (cw_world c) s1 (cw_args c)
            | (s1, Some o) =>
                let w' := step (cw_world c) (Settle id o) in
                CWorld w' (enter_invoked K (cw_world c) w' (cw_args c) s1)
                       (cw_args c)
            end
        | None => c
        end
      else c
  end.

Definition crun (K : client) (evs : list (cevent K)) (c : cworld K) : cworld K :=
  foldl (cstep K) c evs.

Definition cinit (K : client) (s0 : cstate K) : cworld K := CWorld init s0 [].

(** Number of calls whose body has ended. *)
Definition completed (w : world) : nat := length (signalled (trace w)).

(** The argument of the body in flight. *)
Definition current {K : client} (c : cworld K) : option (carg K) :=
  head (awaiting (cw_world c)) ≫= λ id, cw_args c !! id.

(** Every queued work returns a promise. *)
Definition AllAsync (w : world) : Prop :=
  Forall (λ fn, asyncFunction fn = ReturnsPromise) (queue (this w)).

(** What holds of a caller's world between blocks, for a property [P] of
    the arguments of the bodies that have ended, the argument of the body
    in flight and the caller's state. *)
Definition Serial (K : client)
    (P : list (carg K) → option (carg K) → cstate K → Prop)
    (c : cworld K) : Prop :=
  Inv (cw_world c) ∧ AllAsync (cw_world c) ∧
  calls (cw_world c) = length (cw_args c) ∧
  P (take (completed (cw_world c)) (cw_args c)) (current c) (cw_state c).

(** ** execute.10 (lines 114-130)

    The bodies share the variable [isRunning] of the test.  A body expects
    it to be false, sets it, awaits a timer ([waitFunction('resolve', 10)])
    and clears it in its [finally].  A failed [expect] throws before the
    [try]: the body ends there, rejected, and leaves the variable alone. *)

Record test10 := Test10 {
  t_isRunning : bool;           (* the variable of line 115 *)
  t_failed : list nat           (* the calls whose expect failed *)
}.

Definition expect_error : value := VError "expect(received).toBe(expected)".

Definition enter10 (id : nat) (_ : unit) (s : test10) : test10 :=
  if t_isRunning s then Test10 (t_isRunning s) (t_failed s ++ [id])
  else Test10 true (t_failed s).

Definition wake10 (id : nat) (_ : unit) (s : test10)
  : test10 * option settlement :=
  if decide (id ∈ t_failed s) then (s, Some (Rejected expect_error))
  else (Test10 false (t_failed s), Some (Fulfilled VUndefined)).

Definition client10 : client := Client test10 unit enter10 wake10.

(** Line 115. *)
Definition start10 : test10 := Test10 false [].

(** ** execute.02 (lines 70-113)

    The bodies share one file.  A body awaits [access]; when the file
    exists it awaits [appendFile] of a newline and its number, otherwise
    the [catch] awaits [writeFile] of its number.  An operation of [fs]
    takes effect when it completes: [access] sees the file as it is then,
    [appendFile] appends (creating the file when it is missing),
    [writeFile] replaces the content. *)

Inductive phase := Accessing | Appending | Writing.

Record test02 := Test02 {
  t_file : option string;       (* the content of FILE_PATH, if it exists *)
  t_phase : gmap nat phase      (* where each running body is *)
}.

Definition newline : string := String (Ascii.ascii_of_nat 10) "".

Definition enter02 (id : nat) (num : nat) (s : test02) : test02 :=
  Test02 (t_file s) (<[id := Accessing]> (t_phase s)).

Definition wake02 (id : nat) (num : nat) (s : test02)
  : test02 * option settlement :=
  match t_phase s !! id with
  | Some Accessing =>
      (Test02 (t_file s)
              (<[id := match t_file s with
                        | Some _ => Appending
                        | None => Writing
                        end]> (t_phase s)),
       None)
  | Some Appending =>
      (Test02 (Some (default "" (t_file s) +:+ newline +:+ pretty num))
              (delete id (t_phase s)),
       Some (Fulfilled VUndefined))
  | Some Writing =>
      (Test02 (Some (pretty num)) (delete id (t_phase s)),
       Some (Fulfilled VUndefined))
  | None => (s, None)
  end.

Definition client02 : client := Client test02 nat enter02 wake02.

(** Line 92 unlinks the file before the first submission. *)
Definition start02 : test02 := Test02 None ∅.

(** The bodies run one after the other, each to its end. *)
Definition append_number (file : option string) (num : nat) : option string :=
  match file with
  | Some content => Some (content +:+ newline +:+ pretty num)
  | None => Some (pretty num)
  end.

Definition log_of (nums : list nat) : option string :=
  foldl append_number None nums.

(** execute.10: no expect has failed, and the variable of the test is set
    exactly while a body is in flight. *)
Definition flag_inv (done : list unit) (cur : option unit) (s : test10) : Prop :=
  t_failed s = [] ∧
  t_isRunning s = match cur with Some _ => true | None => false end.

(** execute.02: the file holds the numbers of the bodies that have ended,
    and the only body under way is the one in flight, which has not
    written yet: it is checking for the file, or appending to the file it
    found, or writing the file it did not find. *)
Definition file_inv (done : list nat) (cur : option nat) (s : test02) : Prop :=
  t_file s = log_of done ∧
  match cur with
  | None => t_phase s = ∅
  | Some _ =>
      ∃ ph, t_phase s = {[length done := ph]} ∧
            (ph = Appending → is_Some (t_file s)) ∧
            (ph = Writing → t_file s = None)
  end.

(** ** execute.01 (lines 23-69)

    The same bodies, called without the queue.  A call of
    [appendNumberToFile] runs the synchronous part of the body at once and
    hands back its promise, so any number of bodies are under way
    together.  A file operation is performed on the file at some moment
    after the body issued it, and the body resumes at some later moment;
    operations of different bodies are performed in any order, and bodies
    resume in any order.  Each operation is performed in one step:
    [access] finds the file or not, [appendFile] appends (creating the
    file when it is missing), [writeFile] replaces the content. *)

Inductive rphase :=
| Checking                      (* line 33: access issued *)
| Checked (found : bool)        (* access performed, the body not yet resumed *)
| RAppending                    (* line 37: appendFile issued *)
| RAppended                     (* appendFile performed *)
| RWriting                      (* line 43: writeFile issued *)
| RWritten                      (* writeFile performed *)
| Finished.                     (* the body has returned *)

Record racing := Racing {
  r_file : option string;       (* the content of FILE_PATH, if it exists *)
  r_phase : gmap nat rphase;    (* where each body is *)
  r_args : list nat             (* the number of each body, in call order *)
}.

Inductive revent :=
| Call (num : nat)              (* line 54: appendNumberToFile(num) *)
| Perform (id : nat)            (* the operation body [id] issued is performed *)
| Resume (id : nat).            (* body [id] resumes after its operation *)

Definition set_rphase (id : nat) (ph : rphase) (c : racing) : racing :=
  Racing (r_file c) (<[id := ph]> (r_phase c)) (r_args c).

Definition rstep (c : racing) (ev : revent) : racing :=
  match ev with
  | Call num =>
      Racing (r_file c) (<[length (r_args c) := Checking]> (r_phase c))
             (r_args c ++ [num])
  | Perform id =>
      match r_args c !! id, r_phase c !! id with
      | Some num, Some Checking =>
          set_rphase id
            (Checked match r_file c with Some _ => true | None => false end) c
      | Some num, Some RAppending =>
          Racing (Some (default "" (r_file c) +:+ newline +:+ pretty num))
                 (<[id := RAppended]> (r_phase c)) (r_args c)
      | Some num, Some RWriting =>
          Racing (Some (pretty num)) (<[id := RWritten]> (r_phase c)) (r_args c)
      | _, _ => c
      end
  | Resume id =>
      match r_phase c !! id with
      | Some (Checked true) => set_rphase id RAppending c
      | Some (Checked false) => set_rphase id RWriting c
      | Some RAppended | Some RWritten => set_rphase id Finished c
      | _ => c
      end
  end.

Definition rrun (evs : list revent) (c : racing) : racing := foldl rstep c evs.

(** Line 48 unlinks the file before the first call. *)
Definition rstart : racing := Racing None ∅ [].




(** * Lemmas *)

(** ** Scenarios of the test-suite *)

(** execute.99: one work that fails at once ([async () => { throw ... }]);
    the promise of the call rejects with the very error. *)
Example execute_99 :
  promises (run [Execute ReturnsPromise;
                 Settle 0 (Rejected (VError "synchronized threw error"))] init)
    !! 0 = Some (Rejected (VError "synchronized threw error")).
Proof. reflexivity. Qed.

(** execute.02: five works submitted in one go, each settling in turn. *)
Example execute_02 :
  invoked (trace (run (replicate 5 (Execute ReturnsPromise) ++
                       map (λ i, Settle i (Fulfilled VUndefined)) (seq 0 5)) init))
  = [0; 1; 2; 3; 4].
Proof. reflexivity. Qed.

(** ** Traces and appends *)

Lemma invoked_app tr1 tr2 : invoked (tr1 ++ tr2) = invoked tr1 ++ invoked tr2.
Proof.
  induction tr1 as [|a tr1 IH]; [done|].
  destruct a; simpl; by rewrite IH.
Qed.

Lemma resolves_app id tr1 tr2 :
  resolves id (tr1 ++ tr2) = resolves id tr1 + resolves id tr2.
Proof.
  induction tr1 as [|a tr1 IH]; [done|].
  destruct a; simpl; rewrite IH; lia.
Qed.

Lemma rejects_app id tr1 tr2 :
  rejects id (tr1 ++ tr2) = rejects id tr1 + rejects id tr2.
Proof.
  induction tr1 as [|a tr1 IH]; [done|].
  destruct a; simpl; rewrite IH; lia.
Qed.

Lemma occupancy_app tr1 tr2 cur :
  occupancy cur (tr1 ++ tr2) = occupancy cur tr1 ≫= λ c, occupancy c tr2.
Proof.
  revert cur. induction tr1 as [|a tr1 IH]; intros cur; [done|].
  destruct a; simpl; try apply IH; destruct cur; simpl; try done;
    try case_decide; simpl; auto.
Qed.

Lemma signals_app id tr1 tr2 :
  signals id (tr1 ++ tr2) = signals id tr1 + signals id tr2.
Proof. unfold signals. rewrite resolves_app, rejects_app. lia. Qed.

(** ** Call numbers *)

Lemma fifo_head (l r : list nat) id n :
  l ++ id :: r = seq 0 n → id = length l ∧ length l < n.
Proof.
  intros H.
  assert (Hl : seq 0 n !! length l = Some id)
    by (rewrite <- H; apply list_lookup_middle; done).
  apply lookup_seq in Hl. lia.
Qed.

Lemma fifo_prefix (l r : list nat) n :
  l ++ r = seq 0 n →
  l = seq 0 (length l) ∧ r = seq (length l) (n - length l) ∧ length l ≤ n.
Proof.
  intros H.
  assert (Hn : length l + length r = n)
    by (rewrite <- length_app, H; apply length_seq).
  assert (Hs : seq 0 n = seq 0 (length l) ++ seq (length l) (length r))
    by (rewrite <- Hn; apply seq_app).
  rewrite Hs in H. apply app_inj_1 in H; [|by rewrite length_seq].
  destruct H as [-> ->]. rewrite !length_seq.
  split; [done|]. split; [f_equal; lia | lia].
Qed.

(** ** Promises and signals *)

Lemma settle_lookup_eq id o p :
  p !! id = None → settle id o p !! id = Some o.
Proof. intros H. unfold settle. rewrite H. apply lookup_insert_eq. Qed.

Lemma settle_lookup_ne id j o p :
  id ≠ j → settle id o p !! j = p !! j.
Proof.
  intros H. unfold settle. destruct (p !! id); [done|].
  by apply lookup_insert_ne.
Qed.

Lemma settle_stable id j o c p :
  p !! j = Some c → settle id o p !! j = Some c.
Proof.
  intros H. unfold settle. destruct (p !! id) eqn:E; [done|].
  rewrite lookup_insert_ne; [done|]. intros ->. congruence.
Qed.

Lemma deliver_trace id o w :
  trace (deliver id o w)
  = trace w ++ [match o with Fulfilled v => Resolve id v | Rejected e => Reject id e end].
Proof. by destruct o. Qed.

Lemma deliver_promises id o w :
  promises (deliver id o w) = settle id o (promises w).
Proof. by destruct o. Qed.

Lemma deliver_this id o w : this (deliver id o w) = this w.
Proof. by destruct o. Qed.

Lemma deliver_awaiting id o w : awaiting (deliver id o w) = awaiting w.
Proof. by destruct o. Qed.

Lemma deliver_calls id o w : calls (deliver id o w) = calls w.
Proof. by destruct o. Qed.

Lemma reject_deliver id e w : reject id e w = deliver id (Rejected e) w.
Proof. done. Qed.

Lemma signal_invoked o id :
  invoked [match o with Fulfilled v => Resolve id v | Rejected e => Reject id e end] = [].
Proof. by destruct o. Qed.

Lemma signal_signals o id j :
  signals j [match o with Fulfilled v => Resolve id v | Rejected e => Reject id e end]
  = if decide (id = j) then 1 else 0.
Proof. destruct o; unfold signals; simpl; case_decide; lia. Qed.

Lemma signal_occupancy o id :
  occupancy (Some id)
    [match o with Fulfilled v => Resolve id v | Rejected e => Reject id e end]
  = Some None.
Proof. destruct o; simpl; by rewrite decide_True. Qed.

(** ** The invariant is kept *)

(** The wrapper of the work in its interval signals: the interval ends and
    nobody is awaiting any more. *)
Lemma Core_deliver w id o :
  Core w → awaiting w = [id] →
  Core (deliver id o (set_awaiting [] w)).
Proof.
  intros [Hf Ha Hd Ho Hocc] Haw.
  destruct Ha as [Ha|[Hpos Ha]]; [congruence|].
  assert (Hid : id = pred (started w)) by congruence.
  assert (Hst : started (deliver id o (set_awaiting [] w)) = started w).
  { unfold started. by rewrite deliver_trace, invoked_app, signal_invoked, app_nil_r. }
  constructor; rewrite ?Hst, ?deliver_trace, ?deliver_this, ?deliver_awaiting,
    ?deliver_promises, ?deliver_calls; simpl.
  - by rewrite invoked_app, signal_invoked, app_nil_r.
  - by left.
  - intros j Hj _. rewrite signals_app, signal_signals.
    destruct (decide (id = j)) as [<-|Hne].
    + destruct (Ho id) as [Hs Hp]; [right; rewrite Haw; by left|].
      split; [lia|]. rewrite settle_lookup_eq; [eauto|done].
    + destruct (Hd j) as [Hs Hp];
        [done|rewrite Haw; intros ?%list_elem_of_singleton; congruence|].
      split; [lia|]. by rewrite settle_lookup_ne.
  - intros j [Hj|Hj]; [|by apply elem_of_nil in Hj].
    rewrite signals_app, signal_signals.
    destruct (Ho j) as [Hs Hp]; [by left|].
    rewrite decide_False by lia. split; [lia|].
    rewrite settle_lookup_ne by lia. done.
  - rewrite occupancy_app, Hocc, Haw. simpl. apply signal_occupancy.
Qed.

(** [processQueue], called while nobody is awaiting, re-establishes the
    meaning of the flag. *)
Lemma Inv_processQueue_on q w :
  queue (this w) = q → Core w → awaiting w = [] →
  Inv (processQueue_on q w).
Proof.
  revert w. induction q as [|fn rest IH]; intros w Hq HC Haw.
  - simpl. destruct HC as [Hf Ha Hd Ho Hocc]. split.
    + constructor; simpl; try done. by rewrite Hq in Hf.
    + by simpl.
  - simpl.
    set (w1 := log (Invoke (wid fn)) (log (Shift (wid fn)) (set_this (Instance rest true) w))).
    assert (Htr : trace w1 = trace w ++ [Shift (wid fn); Invoke (wid fn)])
      by (simpl; by rewrite <- app_assoc).
    assert (Hth : this w1 = Instance rest true) by done.
    assert (Haw1 : awaiting w1 = awaiting w) by done.
    assert (Hpr : promises w1 = promises w) by done.
    assert (Hca : calls w1 = calls w) by done.
    clearbody w1.
    assert (Hinv : invoked (trace w1) = invoked (trace w) ++ [wid fn])
      by (rewrite Htr, invoked_app; done).
    destruct HC as [Hf Ha Hd Ho Hocc].
    rewrite Hq in Hf. simpl in Hf.
    destruct (fifo_head _ _ _ _ Hf) as [Hid Hlt]. fold (started w) in Hid, Hlt.
    assert (Hst : started w1 = S (started w))
      by (unfold started; rewrite Hinv, length_app; simpl; lia).
    assert (Hsig : ∀ j, signals j (trace w1) = signals j (trace w))
      by (intros j; rewrite Htr, signals_app; unfold signals; simpl; lia).
    assert (Hocc1 : occupancy None (trace w1) = Some (Some (wid fn)))
      by (rewrite Htr, occupancy_app, Hocc, Haw; done).
    assert (HC1 : Core (set_awaiting [wid fn] w1)).
    { constructor; unfold started; simpl; fold (started w1);
        rewrite ?Hst, ?Hth, ?Hpr, ?Hca; simpl.
      - rewrite Hinv, <- app_assoc. done.
      - right. split; [lia|]. by rewrite Hid.
      - intros j Hj Hn. rewrite Hsig.
        assert (j ≠ wid fn) by (intros ->; apply Hn; by left).
        apply Hd; [lia|]. rewrite Haw. by intros ?%elem_of_nil.
      - intros j Hj. rewrite Hsig. apply Ho. left.
        destruct Hj as [Hj|Hj]; [lia|].
        apply list_elem_of_singleton in Hj. lia.
      - done. }
    destruct (asyncFunction fn) as [e|].
    + rewrite reject_deliver.
      apply IH.
      * by rewrite deliver_this, Hth.
      * assert (Hw1 : set_awaiting [] (set_awaiting [wid fn] w1) = w1).
        { rewrite Haw in Haw1. destruct w1; simpl in *. by rewrite Haw1. }
        rewrite <- Hw1.
        apply (Core_deliver (set_awaiting [wid fn] w1) (wid fn) (Rejected e)); done.
      * by rewrite deliver_awaiting, Haw1.
    + rewrite ?Haw1, Haw. simpl. split; [exact HC1|]. unfold Flag. simpl. by rewrite Hth.
Qed.

Lemma Core_log a w : silent a → Core w → Core (log a w).
Proof.
  intros Hs [Hf Ha Hd Ho Hocc].
  assert (Hi : invoked (trace w ++ [a]) = invoked (trace w))
    by (rewrite invoked_app; destruct a; simpl in *; try done; apply app_nil_r).
  assert (Hg : ∀ j, signals j (trace w ++ [a]) = signals j (trace w))
    by (intros j; rewrite signals_app; destruct a; unfold signals; simpl in *; try done; lia).
  constructor; unfold started; simpl; rewrite ?Hi; try done.
  - intros j. rewrite Hg. apply Hd.
  - intros j. rewrite Hg. apply Ho.
  - rewrite occupancy_app, Hocc. by destruct a.
Qed.

Lemma Inv_log a w : silent a → Inv w → Inv (log a w).
Proof. intros Hs [HC HF]. split; [by apply Core_log|done]. Qed.

Lemma Core_push f w : Core w → Core (push f w).
Proof.
  intros [Hf Ha Hd Ho Hocc].
  assert (Hi : invoked (trace w ++ [Push (calls w)]) = invoked (trace w))
    by (rewrite invoked_app; apply app_nil_r).
  assert (Hg : ∀ j, signals j (trace w ++ [Push (calls w)]) = signals j (trace w))
    by (intros j; rewrite signals_app; unfold signals; simpl; lia).
  assert (Hf' : invoked (trace (push f w)) ++ map wid (queue (this (push f w)))
                = seq 0 (calls (push f w))).
  { unfold push. cbn [trace this queue calls].
    rewrite Hi, map_app, app_assoc, Hf. symmetry. apply seq_S. }
  constructor; [exact Hf'|..]; unfold started; simpl; rewrite ?Hi; try done.
  - intros j. rewrite Hg. apply Hd.
  - intros j. rewrite Hg. apply Ho.
  - by rewrite occupancy_app, Hocc.
Qed.

Lemma Inv_init : Inv init.
Proof.
  split; [|done]. constructor; try done.
  - by left.
  - intros id Hid. unfold started in Hid. simpl in Hid. lia.
Qed.

Lemma Inv_execute f w : Inv w → Inv (execute f w).
Proof.
  intros [HC HF]. unfold execute. apply Inv_log; [done|].
  pose proof (Core_push f w HC) as HCp.
  unfold Flag in HF. simpl.
  destruct (isRunning (this w)) eqn:Hr.
  - split; [done|]. unfold Flag. simpl. by rewrite Hr.
  - destruct HF as [_ Haw]. by apply Inv_processQueue_on.
Qed.

Lemma awaiting_singleton w id : Core w → id ∈ awaiting w → awaiting w = [id].
Proof.
  intros [_ [Ha|[_ Ha]] _ _ _] Hin; rewrite Ha in Hin.
  - by apply elem_of_nil in Hin.
  - apply list_elem_of_singleton in Hin. by rewrite Ha, Hin.
Qed.

Lemma resume_eq w id o :
  awaiting w = [id] →
  resume id o w = processQueue (deliver id o (set_awaiting [] w)).
Proof.
  intros Ha. unfold resume. rewrite Ha.
  rewrite filter_cons_False by (intros H; by apply H). done.
Qed.

Lemma Inv_resume id o w : Inv w → id ∈ awaiting w → Inv (resume id o w).
Proof.
  intros [HC HF] Hin.
  pose proof (awaiting_singleton w id HC Hin) as Ha.
  rewrite (resume_eq w id o Ha).
  apply Inv_processQueue_on; [done| |by rewrite deliver_awaiting].
  by apply Core_deliver.
Qed.

Lemma Inv_step w ev : Inv w → Inv (step w ev).
Proof.
  intros HI. destruct ev as [f|id o]; simpl.
  - by apply Inv_execute.
  - case_decide; [by apply Inv_resume|done].
Qed.

Lemma run_app evs1 evs2 w : run (evs1 ++ evs2) w = run evs2 (run evs1 w).
Proof. apply foldl_app. Qed.

Lemma Inv_run_from evs w : Inv w → Inv (run evs w).
Proof.
  revert w. induction evs as [|ev evs IH]; intros w HI; [done|].
  simpl. apply IH. by apply Inv_step.
Qed.

Lemma Inv_run evs : Inv (run evs init).
Proof. apply Inv_run_from, Inv_init. Qed.

(** ** What processQueue does to any world *)

Lemma processQueue_unfold w :
  processQueue w =
  match queue (this w) with
  | [] => set_this (Instance [] false) w
  | fn :: rest =>
      let w1 := log (Invoke (wid fn))
                  (log (Shift (wid fn)) (set_this (Instance rest true) w)) in
      match asyncFunction fn with
      | Throws e => processQueue (reject (wid fn) e w1)
      | ReturnsPromise => set_awaiting (awaiting w1 ++ [wid fn]) w1
      end
  end.
Proof.
  unfold processQueue. destruct (queue (this w)) as [|fn rest]; [done|].
  simpl. by destruct (asyncFunction fn).
Qed.

(** It removes a prefix of the queue and starts exactly the removed
    wrappers, in queue order. *)
Lemma processQueue_on_prefix q w :
  ∃ j, j ≤ length q ∧ (q ≠ [] → 0 < j) ∧
       queue (this (processQueue_on q w)) = drop j q ∧
       invoked (trace (processQueue_on q w))
       = invoked (trace w) ++ map wid (take j q).
Proof.
  revert w. induction q as [|fn rest IH]; intros w.
  - exists 0. simpl. by rewrite app_nil_r.
  - simpl. destruct (asyncFunction fn) as [e|].
    + destruct (IH (reject (wid fn) e
        (log (Invoke (wid fn)) (log (Shift (wid fn)) (set_this (Instance rest true) w)))))
        as (j & Hj & _ & Hq & Hi).
      exists (S j). simpl. split; [lia|]. split; [lia|]. split; [done|].
      rewrite Hi. simpl. rewrite !invoked_app. simpl.
      by rewrite !app_nil_r, <- app_assoc.
    + exists 1. simpl. split; [lia|]. split; [lia|]. rewrite ?drop_0, ?take_0.
      split; [done|]. rewrite !invoked_app. simpl. by rewrite !app_nil_r.
Qed.

Lemma processQueue_on_calls q w : calls (processQueue_on q w) = calls w.
Proof.
  revert w. induction q as [|fn rest IH]; intros w; [done|].
  simpl. destruct (asyncFunction fn); [by rewrite IH|done].
Qed.

(** A settled promise stays as it is. *)
Lemma processQueue_on_stable q w j c :
  promises w !! j = Some c → promises (processQueue_on q w) !! j = Some c.
Proof.
  revert w. induction q as [|fn rest IH]; intros w H; [done|].
  simpl. destruct (asyncFunction fn); [|done].
  apply IH. simpl. by apply settle_stable.
Qed.

(** A promise it settles belongs to a queued work that threw, and holds
    that work's error. *)
Lemma processQueue_on_origin q w j c :
  promises (processQueue_on q w) !! j = Some c →
  promises w !! j = Some c ∨ ∃ e, c = Rejected e ∧ Wrapper j (Throws e) ∈ q.
Proof.
  revert w. induction q as [|fn rest IH]; intros w H; [by left|].
  simpl in H. destruct fn as [id [e|]]; simpl in H; [|by left].
  apply IH in H as [H|(e' & -> & Hin)].
  - simpl in H. destruct (decide (id = j)) as [->|Hne].
    + destruct (promises w !! j) as [c'|] eqn:E.
      * left. by rewrite (settle_stable j j (Rejected e) c') in H.
      * rewrite settle_lookup_eq in H by done. right. exists e.
        split; [congruence|]. by left.
    + rewrite settle_lookup_ne in H by done. by left.
  - right. exists e'. split; [done|]. by right.
Qed.

(** The queue and the awaited wrappers together never grow. *)
Lemma processQueue_on_measure q w :
  length (queue (this (processQueue_on q w))) + length (awaiting (processQueue_on q w))
  ≤ length q + length (awaiting w).
Proof.
  revert w. induction q as [|fn rest IH]; intros w; [simpl; lia|].
  simpl. destruct (asyncFunction fn).
  - etrans; [apply IH|]. simpl. lia.
  - simpl. rewrite length_app. simpl. lia.
Qed.

Lemma settle_alike id j o p1 p2 k :
  k ≠ id → (∀ i, i ≠ id → p1 !! i = p2 !! i) →
  settle j o p1 !! k = settle j o p2 !! k.
Proof.
  intros Hk H. destruct (decide (j = k)) as [->|Hne].
  - unfold settle. rewrite <- (H k Hk).
    destruct (p1 !! k) eqn:E; [by rewrite <- (H k Hk)|].
    by rewrite !lookup_insert_eq.
  - rewrite !settle_lookup_ne by done. by apply H.
Qed.

Lemma processQueue_on_alike id q w1 w2 :
  alike id w1 w2 → alike id (processQueue_on q w1) (processQueue_on q w2).
Proof.
  revert w1 w2. induction q as [|fn rest IH]; intros w1 w2 (Ht & Ha & Hc & Hi & Hp).
  - by repeat split.
  - simpl. destruct (asyncFunction fn) as [e|].
    + apply IH. repeat split; simpl; try done.
      * rewrite !invoked_app. by rewrite Hi.
      * intros k Hk. by apply (settle_alike id).
    + repeat split; simpl; try done.
      * by rewrite Ha.
      * rewrite !invoked_app. by rewrite Hi.
Qed.

Lemma step_calls_mono w ev : calls w ≤ calls (step w ev).
Proof.
  destruct ev as [f|id o]; simpl.
  - destruct (isRunning (this w)); simpl; [lia|].
    unfold processQueue. rewrite processQueue_on_calls. simpl. lia.
  - case_decide; [|done]. unfold resume, processQueue.
    by rewrite processQueue_on_calls, deliver_calls.
Qed.

Lemma step_stable w ev j c :
  promises w !! j = Some c → promises (step w ev) !! j = Some c.
Proof.
  intros H. destruct ev as [f|id o]; simpl.
  - destruct (isRunning (this w)); simpl; [done|].
    by apply processQueue_on_stable.
  - case_decide; [|done]. apply processQueue_on_stable.
    rewrite deliver_promises. by apply settle_stable.
Qed.

Lemma run_stable evs w j c :
  promises w !! j = Some c → promises (run evs w) !! j = Some c.
Proof.
  revert w. induction evs as [|ev evs IH]; intros w H; [done|].
  simpl. by apply IH, step_stable.
Qed.

(** ** Works in flight settle *)

Lemma resume_backlog w id o :
  awaiting w = [id] → backlog (resume id o w) < backlog w.
Proof.
  intros Ha. rewrite (resume_eq w id o Ha). unfold backlog, processQueue.
  eapply Nat.le_lt_trans; [apply processQueue_on_measure|].
  rewrite deliver_this, deliver_awaiting, Ha. simpl. lia.
Qed.

Lemma Inv_idle w :
  Inv w → awaiting w = [] → isRunning (this w) = false ∧ queue (this w) = [].
Proof.
  intros [_ HF] Ha. unfold Flag in HF.
  destruct (isRunning (this w)); [done|]. by destruct HF.
Qed.

Lemma Inv_all_started w :
  Inv w → awaiting w = [] → invoked (trace w) = seq 0 (calls w).
Proof.
  intros HI Ha. destruct (Inv_idle w HI Ha) as [_ Hq].
  destruct HI as [[Hf _ _ _ _] _]. by rewrite Hq, app_nil_r in Hf.
Qed.

Lemma settle_in_turn_spec outcome n w :
  Inv w → backlog w ≤ n →
  let w' := settle_in_turn outcome n w in
  Inv w' ∧ awaiting w' = [] ∧ calls w' = calls w.
Proof.
  revert w. induction n as [|n IH]; intros w HI Hb; simpl.
  - split; [done|]. split; [|done].
    unfold backlog in Hb. destruct (awaiting w); [done|simpl in Hb; lia].
  - destruct (awaiting w) as [|id l] eqn:Ha; [done|].
    assert (Hin : id ∈ awaiting w) by (rewrite Ha; by left).
    pose proof (awaiting_singleton w id (proj1 HI) Hin) as Ha1.
    rewrite decide_True by (by left).
    pose proof (resume_backlog w id (outcome id) Ha1) as Hlt.
    destruct (IH (resume id (outcome id) w)) as (HI' & Ha' & Hc');
      [by apply Inv_resume|lia|].
    split; [done|]. split; [done|]. rewrite Hc'.
    unfold resume, processQueue. by rewrite processQueue_on_calls, deliver_calls.
Qed.

(** ** Resumption of a wrapper *)

Lemma resume_promise w id o :
  Inv w → id ∈ awaiting w →
  promises w !! id = None ∧ promises (resume id o w) !! id = Some o.
Proof.
  intros HI Hin.
  destruct (core_open _ (proj1 HI) id) as [_ Hp]; [by right|].
  split; [done|].
  apply processQueue_on_stable. rewrite deliver_promises.
  by apply settle_lookup_eq.
Qed.

Lemma resume_next w id o fn rest :
  awaiting w = [id] → queue (this w) = fn :: rest →
  ∃ l, invoked (trace (resume id o w)) = invoked (trace w) ++ wid fn :: l.
Proof.
  intros Ha Hq. rewrite (resume_eq w id o Ha). unfold processQueue.
  rewrite deliver_this. simpl. rewrite Hq.
  destruct (processQueue_on_prefix (fn :: rest) (deliver id o (set_awaiting [] w)))
    as (j & _ & Hj & _ & Hi).
  rewrite Hi, deliver_trace, invoked_app, signal_invoked, app_nil_r. simpl.
  destruct j as [|j]; [specialize (Hj ltac:(done)); lia|].
  simpl. eauto.
Qed.

Lemma resume_alike w id o1 o2 :
  alike id (resume id o1 w) (resume id o2 w).
Proof.
  unfold resume, processQueue. rewrite !deliver_this.
  apply processQueue_on_alike.
  repeat split; rewrite ?deliver_this, ?deliver_awaiting, ?deliver_calls; try done.
  - by rewrite !deliver_trace, !invoked_app, !signal_invoked.
  - intros j Hj. rewrite !deliver_promises. by rewrite !settle_lookup_ne.
Qed.

Lemma execute_then_drained w f outcome :
  Inv w →
  let w2 := step w (Execute f) in
  calls w ∈ invoked (trace (settle_in_turn outcome (backlog w2) w2)).
Proof.
  intros HI. simpl.
  pose proof (Inv_execute f w HI) as HI2.
  destruct (settle_in_turn_spec outcome (backlog (execute f w)) (execute f w) HI2)
    as (HI' & Ha' & Hc'); [done|].
  rewrite (Inv_all_started _ HI' Ha'), Hc'.
  assert (Hc : calls (execute f w) = S (calls w)).
  { unfold execute. simpl. destruct (isRunning (this w)); [done|].
    unfold processQueue. by rewrite processQueue_on_calls. }
  rewrite Hc. apply elem_of_seq. lia.
Qed.

(** ** The two cases of execute in a reachable world *)

Lemma step_Execute w f : step w (Execute f) = execute f w.
Proof. done. Qed.

Lemma step_Settle w id o :
  id ∈ awaiting w → step w (Settle id o) = resume id o w.
Proof. intros H. simpl. by rewrite decide_True. Qed.

Lemma execute_calls f w : calls (execute f w) = S (calls w).
Proof.
  unfold execute. simpl. destruct (isRunning (this w)); [done|].
  unfold processQueue. by rewrite processQueue_on_calls.
Qed.

Lemma Inv_busy w :
  Inv w → queue (this w) ≠ [] →
  isRunning (this w) = true ∧ ∃ id, awaiting w = [id].
Proof.
  intros [HC HF] Hq. unfold Flag in HF.
  destruct (isRunning (this w)); [|by destruct HF].
  split; [done|].
  destruct (core_awaiting _ HC) as [Ha|[_ Ha]]; [done|eauto].
Qed.

Lemma Inv_flag w : Inv w → isRunning (this w) = true ↔ awaiting w ≠ [].
Proof.
  intros [HC HF]. unfold Flag in HF.
  destruct (isRunning (this w)); [done|].
  destruct HF as [_ ->]. split; [done|]. by intros [].
Qed.

(** On an idle instance the call pushes, shifts its own wrapper and calls
    the work, all before it returns. *)
Lemma execute_idle w f :
  Inv w → isRunning (this w) = false →
  execute f w =
  World (Instance [] (match f with ReturnsPromise => true | Throws _ => false end))
        (match f with ReturnsPromise => [calls w] | Throws _ => [] end)
        (match f with
         | ReturnsPromise => promises w
         | Throws e => settle (calls w) (Rejected e) (promises w)
         end)
        (S (calls w))
        (trace w ++ [Push (calls w); Shift (calls w); Invoke (calls w)] ++
           match f with ReturnsPromise => [] | Throws e => [Reject (calls w) e] end ++
           [Return (calls w)]).
Proof.
  intros HI Hr.
  assert (Ha : awaiting w = []).
  { destruct (awaiting w) eqn:E; [done|].
    assert (isRunning (this w) = true) by (apply Inv_flag; [done|by rewrite E]).
    congruence. }
  destruct (Inv_idle w HI Ha) as [_ Hq].
  unfold execute, processQueue, push. simpl. rewrite Hr, Hq, Ha. simpl.
  destruct f; unfold log, reject, set_promises, set_this, set_awaiting; simpl;
    f_equal; by rewrite <- !app_assoc.
Qed.

(** While a wrapper is in flight the call pushes and returns. *)
Lemma execute_busy w f :
  isRunning (this w) = true →
  execute f w =
  World (Instance (queue (this w) ++ [Wrapper (calls w) f]) true)
        (awaiting w) (promises w) (S (calls w))
        (trace w ++ [Push (calls w); Return (calls w)]).
Proof.
  intros Hr. unfold execute, push. simpl. rewrite Hr. unfold log. simpl.
  by rewrite <- app_assoc.
Qed.

Lemma position_here a tr : position a (a :: tr) = Some 0.
Proof. simpl. by rewrite decide_True. Qed.

Lemma position_later a b tr :
  a ≠ b → position a (b :: tr) = S <$> position a tr.
Proof. intros H. simpl. by rewrite decide_False. Qed.

(** ** A work that throws *)

Lemma throw_as_rejection u id e rest :
  id ∉ awaiting u →
  processQueue_on (Wrapper id (Throws e) :: rest) u
  = resume id (Rejected e) (processQueue_on (Wrapper id ReturnsPromise :: rest) u).
Proof.
  intros Hn. unfold resume, processQueue. simpl.
  rewrite filter_app, filter_cons_False, filter_nil, app_nil_r
    by (intros H; by apply H).
  assert (Hf : filter (λ j, j ≠ id) (awaiting u) = awaiting u).
  { clear -Hn. induction (awaiting u) as [|a l IH]; [done|].
    apply not_elem_of_cons in Hn as [Hne Hn].
    rewrite filter_cons_True by done. by rewrite IH. }
  by rewrite Hf.
Qed.

Lemma throw_rejects u id e rest :
  promises u !! id = None →
  promises (processQueue_on (Wrapper id (Throws e) :: rest) u) !! id
  = Some (Rejected e).
Proof.
  intros Hp. simpl. apply processQueue_on_stable. simpl.
  by apply settle_lookup_eq.
Qed.

Lemma processQueue_on_trace q w :
  ∃ l, trace (processQueue_on q w) = trace w ++ l.
Proof.
  revert w. induction q as [|fn rest IH]; intros w.
  - exists []. simpl. by rewrite app_nil_r.
  - simpl. destruct (asyncFunction fn) as [e|].
    + destruct (IH (reject (wid fn) e
        (log (Invoke (wid fn)) (log (Shift (wid fn)) (set_this (Instance rest true) w)))))
        as [l Hl].
      rewrite Hl. simpl. rewrite <- !app_assoc. eauto.
    + simpl. rewrite <- app_assoc. eauto.
Qed.

Lemma Inv_signals w id :
  Inv w →
  signals id (trace w) ≤ 1 ∧
  (signals id (trace w) = 1 ↔ id ∈ invoked (trace w) ∧ id ∉ awaiting w) ∧
  (signals id (trace w) = 1 ↔ is_Some (promises w !! id)).
Proof.
  intros [HC _].
  pose proof (core_fifo _ HC) as Hf. apply fifo_prefix in Hf as (Hi & _ & _).
  fold (started w) in Hi.
  assert (Hin : id ∈ invoked (trace w) ↔ id < started w)
    by (rewrite Hi, elem_of_seq; lia).
  destruct (decide (id < started w ∧ id ∉ awaiting w)) as [[H1 H2]|Hn].
  - destruct (core_done _ HC id H1 H2) as [Hs Hp].
    rewrite Hs. split; [lia|]. split; [by rewrite Hin|done].
  - assert (Ho : started w ≤ id ∨ id ∈ awaiting w).
    { destruct (decide (id < started w)); [|left; lia].
      right. destruct (decide (id ∈ awaiting w)); [done|]. by destruct Hn. }
    destruct (core_open _ HC id Ho) as [Hs Hp].
    rewrite Hs, Hp. split; [lia|]. split.
    + split; [lia|]. rewrite Hin. intros [? ?]. by destruct Hn.
    + split; [lia|]. by intros [? ?].
Qed.

(** ** The queue in terms of the submissions *)

Lemma submitted_app evs1 evs2 :
  submitted (evs1 ++ evs2) = submitted evs1 ++ submitted evs2.
Proof.
  induction evs1 as [|[f|id o] evs1 IH]; simpl; [done| |done].
  by rewrite IH.
Qed.

Lemma processQueue_shifts u L :
  queue (this u) = drop (started u) L →
  queue (this (processQueue u)) = drop (started (processQueue u)) L.
Proof.
  intros Hq. unfold processQueue.
  destruct (processQueue_on_prefix (queue (this u)) u) as (j & Hj & _ & H1 & H2).
  rewrite H1. unfold started. rewrite H2, length_app, length_map, length_take.
  rewrite Nat.min_l by done. fold (started u). by rewrite Hq, drop_drop.
Qed.

Lemma run_snoc evs ev w : run (evs ++ [ev]) w = step (run evs w) ev.
Proof. by rewrite run_app. Qed.

Lemma calls_run evs : calls (run evs init) = length (submitted evs).
Proof.
  induction evs as [|ev evs IH] using rev_ind; [done|].
  rewrite run_snoc, submitted_app, length_app.
  destruct ev as [f|id o]; simpl submitted; simpl length.
  - rewrite step_Execute, execute_calls. lia.
  - simpl. case_decide; [|lia].
    unfold resume, processQueue. rewrite processQueue_on_calls, deliver_calls. simpl. lia.
Qed.

Lemma queue_run evs :
  queue (this (run evs init))
  = drop (started (run evs init)) (imap Wrapper (submitted evs)).
Proof.
  induction evs as [|ev evs IH] using rev_ind; [done|].
  rewrite run_snoc, submitted_app.
  pose proof (Inv_run evs) as HI.
  destruct ev as [f|id o].
  - rewrite step_Execute. simpl submitted.
    assert (Hp : queue (this (push f (run evs init)))
                 = drop (started (push f (run evs init)))
                     (imap Wrapper (submitted evs ++ [f]))).
    { assert (Hs : started (push f (run evs init)) = started (run evs init))
        by (unfold started; simpl; by rewrite invoked_app, app_nil_r).
      rewrite Hs, imap_app. simpl. rewrite Nat.add_0_r, <- calls_run.
      rewrite drop_app_le, <- IH; [done|].
      rewrite length_imap, <- calls_run.
      pose proof (core_fifo _ (proj1 HI)) as Hf.
      by apply fifo_prefix in Hf as (_ & _ & Hle). }
    unfold execute. cbv zeta.
    assert (Hl : ∀ a u, queue (this (log a u)) = queue (this u)) by done.
    assert (Hsl : ∀ u, started (log (Return (calls (run evs init))) u) = started u)
      by (intros u; unfold started; simpl; by rewrite invoked_app, app_nil_r).
    rewrite Hl, Hsl.
    destruct (isRunning (this (push f (run evs init)))); [done|].
    by apply processQueue_shifts.
  - simpl submitted. rewrite app_nil_r. simpl step. case_decide; [|done].
    unfold resume. apply processQueue_shifts.
    rewrite deliver_this. simpl. rewrite IH. f_equal.
    unfold started. by rewrite deliver_trace, invoked_app, signal_invoked, app_nil_r.
Qed.

(** * Properties of the specification *)

(** C1.  While wrapper [id] awaits the promise of its work, the promise
    [execute] returned for it is pending; when the work's promise settles
    as [o] (a value or an error), the wrapper settles the returned promise
    as that same [o], and no later block changes it. *)
Theorem C1_transparent (evs evs' : list event) (id : nat) (o : settlement) :
  let w := run evs init in
  id ∈ awaiting w →
  promises w !! id = None ∧
  promises (step w (Settle id o)) !! id = Some o ∧
  promises (run evs' (step w (Settle id o))) !! id = Some o.
Proof.
  simpl. intros Hin.
  destruct (resume_promise (run evs init) id o (Inv_run evs) Hin) as [Hn Hs].
  rewrite decide_True by done.
  split; [done|]. split; [done|]. by apply run_stable.
Qed.

Lemma C1_transparent_witness :
  0 ∈ awaiting (run [Execute ReturnsPromise] init) ∧
  promises (run [Execute ReturnsPromise; Settle 0 (Fulfilled (VNumber 10));
                 Execute ReturnsPromise] init) !! 0
  = Some (Fulfilled (VNumber 10)).
Proof.
  split; [by left|].
  refine (proj2 (proj2 (C1_transparent [Execute ReturnsPromise] [Execute ReturnsPromise] 0
                          (Fulfilled (VNumber 10)) _))).
  by left.
Defined.

(** C2.  After any run of blocks: the calls are numbered in submission
    order; the works started so far followed by the queued ones are the
    calls [0, 1, ..., calls-1] in that order, so no call is started twice,
    none is lost and none overtakes an earlier one; the queue holds exactly
    the submitted works that have not been started, in submission order;
    [processQueue] always removes a prefix of the queue and starts exactly
    the removed wrappers in queue order; once no wrapper is in flight every
    call has been started; and letting the works in flight settle in turn,
    with whatever outcome, gets every call started, each once. *)
Theorem C2_fifo_exactly_once (evs : list event) :
  let w := run evs init in
  calls w = length (submitted evs) ∧
  invoked (trace w) ++ map wid (queue (this w)) = seq 0 (calls w) ∧
  queue (this w)
  = drop (length (invoked (trace w))) (imap Wrapper (submitted evs)) ∧
  NoDup (invoked (trace w)) ∧
  (∀ u : world, ∃ j,
      queue (this (processQueue u)) = drop j (queue (this u)) ∧
      invoked (trace (processQueue u))
      = invoked (trace u) ++ map wid (take j (queue (this u)))) ∧
  (awaiting w = [] → invoked (trace w) = seq 0 (calls w)) ∧
  (∀ outcome,
      let w' := settle_in_turn outcome (backlog w) w in
      invoked (trace w') = seq 0 (calls w) ∧ queue (this w') = [] ∧
      awaiting w' = [] ∧ NoDup (invoked (trace w'))).
Proof.
  simpl. pose proof (Inv_run evs) as HI.
  pose proof (core_fifo _ (proj1 HI)) as Hf.
  split; [apply calls_run|]. split; [done|]. split; [apply queue_run|].
  split; [|split; [|split]].
  - apply fifo_prefix in Hf as [-> _]. apply NoDup_seq.
  - intros u. destruct (processQueue_on_prefix (queue (this u)) u) as (j & _ & _ & H1 & H2).
    by exists j.
  - by apply Inv_all_started.
  - intros outcome.
    destruct (settle_in_turn_spec outcome (backlog (run evs init)) (run evs init) HI)
      as (HI' & Ha' & Hc'); [done|].
    rewrite (Inv_all_started _ HI' Ha'), Hc'.
    split; [done|]. split; [by apply Inv_idle|]. split; [done|]. apply NoDup_seq.
Qed.

(** C3.  In every world a run of blocks can reach, at most one wrapper is
    between the call of its work and its resumption, and the trace is
    exclusive: no work is invoked while another is in its interval, and only
    the work in its interval signals, which ends the interval. *)
Theorem C3_mutual_exclusion (evs : list event) :
  let w := run evs init in
  length (awaiting w) ≤ 1 ∧ exclusive (trace w) = true ∧
  occupancy None (trace w) = Some (head (awaiting w)).
Proof.
  simpl. destruct (Inv_run evs) as [[_ Ha _ _ Hocc] _].
  split; [|split; [|done]].
  - destruct Ha as [->|[_ ->]]; simpl; lia.
  - unfold exclusive. apply bool_decide_eq_true. rewrite Hocc. eauto.
Qed.

(** C4.  Let the work of call [id] fail with [e] while its wrapper awaits
    it.  Then the promise of call [id] rejects with [e]; every promise that
    was settled stays as it was; a promise of another call that settles in
    the same block belongs to a queued work that threw by itself and holds
    that work's own error; the instance, the wrappers in flight, the works
    started and the promises of all other calls come out exactly as they
    do when the work succeeds with any value; the head of the queue, if
    there is one, is started in the same block; and a work submitted
    afterwards is started once the works in flight have settled. *)
Theorem C4_error_isolation (evs : list event) (id : nat) (e : value) :
  let w := run evs init in
  id ∈ awaiting w →
  let w' := step w (Settle id (Rejected e)) in
  promises w' !! id = Some (Rejected e) ∧
  (∀ j c, promises w !! j = Some c → promises w' !! j = Some c) ∧
  (∀ j c, j ≠ id → promises w !! j = None → promises w' !! j = Some c →
     ∃ e', c = Rejected e' ∧ Wrapper j (Throws e') ∈ queue (this w)) ∧
  (∀ v, alike id w' (step w (Settle id (Fulfilled v)))) ∧
  (∀ fn rest, queue (this w) = fn :: rest →
     ∃ l, invoked (trace w') = invoked (trace w) ++ wid fn :: l) ∧
  (∀ f outcome,
     let w2 := step w' (Execute f) in
     calls w' ∈ invoked (trace (settle_in_turn outcome (backlog w2) w2))).
Proof.
  simpl. intros Hin. pose proof (Inv_run evs) as HI.
  rewrite !decide_True by done.
  pose proof (awaiting_singleton _ id (proj1 HI) Hin) as Ha.
  split; [by apply resume_promise|].
  split; [intros j c Hj; by apply (step_stable _ (Settle id (Rejected e))) in Hj;
          simpl in Hj; rewrite decide_True in Hj|].
  split; [|split; [|split]].
  - intros j c Hne Hn Hs. unfold resume, processQueue in Hs.
    apply processQueue_on_origin in Hs as [Hs|Hs].
    + rewrite deliver_promises, settle_lookup_ne in Hs by done. simpl in Hs. congruence.
    + by rewrite deliver_this in Hs.
  - intros v. rewrite decide_True by done. apply resume_alike.
  - intros fn rest Hq. by apply (resume_next _ _ _ fn rest).
  - intros f outcome. apply execute_then_drained. by apply Inv_resume.
Qed.

Lemma C4_error_isolation_witness :
  0 ∈ awaiting (run [Execute ReturnsPromise; Execute ReturnsPromise] init) ∧
  promises (step (run [Execute ReturnsPromise; Execute ReturnsPromise] init)
                 (Settle 0 (Rejected (VError "boom")))) !! 0
  = Some (Rejected (VError "boom")).
Proof.
  split; [by left|].
  refine (proj1 (C4_error_isolation [Execute ReturnsPromise; Execute ReturnsPromise] 0
                   (VError "boom") _)).
  by left.
Defined.

(** C5.  A new instance has an empty queue and a cleared flag.
    [processQueue] on an empty queue clears the flag and does nothing else:
    it starts nothing and leaves no wrapper in flight behind.  In a
    reachable world with the flag set, [execute] appends its wrapper,
    returns and starts nothing.  In a reachable world with the flag
    cleared the instance is as new and no wrapper is in flight, so no
    resumption can happen: the only block that does anything is a call of
    [execute], which runs [processQueue] and starts the submitted work. *)
Theorem C5_idle_draining (evs : list event) :
  this init = Instance [] false ∧
  (∀ u, queue (this u) = [] →
        processQueue u = World (Instance [] false) (awaiting u) (promises u)
                               (calls u) (trace u)) ∧
  let w := run evs init in
  (isRunning (this w) = true →
   ∀ f, let w' := step w (Execute f) in
        this w' = Instance (queue (this w) ++ [Wrapper (calls w) f]) true ∧
        awaiting w' = awaiting w ∧ promises w' = promises w ∧
        invoked (trace w') = invoked (trace w)) ∧
  (isRunning (this w) = false →
   this w = constructor ∧ awaiting w = [] ∧
   (∀ id o, step w (Settle id o) = w) ∧
   (∀ f, let w' := step w (Execute f) in
         w' = log (Return (calls w)) (processQueue (push f w)) ∧
         invoked (trace w') = invoked (trace w) ++ [calls w] ∧
         isRunning (this w')
         = match f with ReturnsPromise => true | Throws _ => false end)).
Proof.
  split; [done|]. split.
  { intros u Hq. unfold processQueue. rewrite Hq. done. }
  cbv zeta. pose proof (Inv_run evs) as HI. split.
  - intros Hr f. rewrite step_Execute, (execute_busy _ f Hr). simpl.
    repeat split. rewrite invoked_app. simpl. by rewrite app_nil_r.
  - intros Hr.
    assert (Ha : awaiting (run evs init) = []).
    { destruct (awaiting (run evs init)) eqn:E; [done|].
      assert (isRunning (this (run evs init)) = true)
        by (apply Inv_flag; [done|by rewrite E]).
      congruence. }
    destruct (Inv_idle _ HI Ha) as [_ Hq].
    split; [|split; [done|split]].
    + unfold constructor. destruct (this (run evs init)); simpl in *. by subst.
    + intros id o. simpl. rewrite Ha. by rewrite decide_False by apply not_elem_of_nil.
    + intros f. rewrite step_Execute. split.
      * unfold execute. simpl. by rewrite Hr.
      * rewrite (execute_idle _ f HI Hr). simpl. split; [|done].
        rewrite invoked_app. f_equal. by destruct f.
Qed.

(** C6.  Between blocks it never happens that the queue holds a wrapper
    while the flag is cleared.  When the queue holds a wrapper, exactly one
    wrapper is in flight, and its resumption starts the head of the queue.
    The flag is set exactly when a wrapper is in flight.  A work submitted
    in any reachable world is either started by its own call, or queued
    behind a wrapper in flight with the flag set. *)
Theorem C6_no_stranded_item (evs : list event) :
  let w := run evs init in
  ¬ (queue (this w) ≠ [] ∧ isRunning (this w) = false) ∧
  (isRunning (this w) = true ↔ awaiting w ≠ []) ∧
  (∀ fn rest, queue (this w) = fn :: rest →
     ∃ id, awaiting w = [id] ∧
           ∀ o, ∃ l, invoked (trace (step w (Settle id o)))
                     = invoked (trace w) ++ wid fn :: l) ∧
  (∀ f, let w' := step w (Execute f) in
        calls w ∈ invoked (trace w') ∨
        (calls w ∈ map wid (queue (this w')) ∧ isRunning (this w') = true ∧
         ∃ id, awaiting w' = [id])).
Proof.
  cbv zeta. pose proof (Inv_run evs) as HI.
  split; [|split; [by apply Inv_flag|split]].
  - intros [Hq Hr]. destruct (Inv_busy _ HI Hq) as [Hr' _]. congruence.
  - intros fn rest Hq.
    destruct (Inv_busy _ HI) as [_ [id Ha]]; [by rewrite Hq|].
    exists id. split; [done|]. intros o.
    rewrite step_Settle by (rewrite Ha; by left).
    by apply (resume_next _ _ _ fn rest).
  - intros f. rewrite step_Execute. pose proof (Inv_execute f _ HI) as HI'.
    pose proof (core_fifo _ (proj1 HI')) as Hf.
    pose proof (execute_calls f (run evs init)) as Hc.
    assert (Hin : calls (run evs init) ∈ seq 0 (calls (execute f (run evs init))))
      by (rewrite Hc; apply elem_of_seq; lia).
    rewrite <- Hf in Hin. apply elem_of_app in Hin as [Hin|Hin]; [by left|].
    right. split; [done|]. apply Inv_busy; [done|].
    intros Hq. rewrite Hq in Hin. by apply elem_of_nil in Hin.
Qed.

(** C7.  The push of [execute] puts exactly one wrapper, around the
    submitted work, at the tail of the queue and leaves the queued
    wrappers, the flag, the wrappers in flight and the promises as they
    were.  [execute] is this push, followed by [processQueue] only when the
    flag was cleared.  [processQueue] only removes wrappers from the head
    of the queue.  So in a reachable world with the flag set the queue
    after the call is the queue before it with the new wrapper appended
    and nothing else changed; with the flag cleared nothing was queued
    before the call, and the new wrapper is removed again by
    [processQueue] alone. *)
Theorem C7_submit_frame (evs : list event) (f : work) :
  (∀ u, this (push f u)
        = Instance (queue (this u) ++ [Wrapper (calls u) f]) (isRunning (this u)) ∧
        awaiting (push f u) = awaiting u ∧ promises (push f u) = promises u ∧
        trace (push f u) = trace u ++ [Push (calls u)]) ∧
  (∀ u, execute f u
        = log (Return (calls u))
            (if isRunning (this u) then push f u else processQueue (push f u))) ∧
  (∀ u, ∃ j, queue (this (processQueue u)) = drop j (queue (this u))) ∧
  let w := run evs init in
  let w' := step w (Execute f) in
  (isRunning (this w) = true →
   queue (this w') = queue (this w) ++ [Wrapper (calls w) f] ∧
   isRunning (this w') = true ∧ awaiting w' = awaiting w ∧
   promises w' = promises w ∧
   trace w' = trace w ++ [Push (calls w); Return (calls w)]) ∧
  (isRunning (this w) = false →
   queue (this w) = [] ∧ queue (this w') = [] ∧
   ∀ j, j ≠ calls w → promises w' !! j = promises w !! j).
Proof.
  split; [done|]. split; [done|]. split.
  { intros u. destruct (processQueue_on_prefix (queue (this u)) u) as (j & _ & _ & H & _).
    by exists j. }
  cbv zeta. rewrite step_Execute. pose proof (Inv_run evs) as HI. split.
  - intros Hr. by rewrite (execute_busy _ f Hr).
  - intros Hr. rewrite (execute_idle _ f HI Hr). simpl.
    assert (Hq : queue (this (run evs init)) = []).
    { destruct (queue (this (run evs init))) eqn:E; [done|].
      destruct (Inv_busy _ HI) as [Hr' _]; [by rewrite E|]. congruence. }
    split; [done|]. split; [done|].
    intros j Hj. destruct f; [|done]. by rewrite settle_lookup_ne.
Qed.

(** C8 as stated fails at the first submission to a new instance: the
    work is invoked at position 2 of the block, the call returns at
    position 3. *)
Lemma C8_prompt_return_fails : ¬ prompt_return init ReturnsPromise.
Proof.
  intros H. destruct (H eq_refl) as (r & Hr & Hi).
  vm_compute in Hr. specialize (Hi 2 eq_refl).
  injection Hr as <-. lia.
Qed.

(** C8, as the code has it.  When [execute] is called on an idle instance
    the work is invoked inside the call, before the call returns: the block
    is push, shift, invoke, then the rejection when the work threw, then
    the return.  The call does not wait for the promise of the work: when
    the work returns a promise, the call returns with the wrapper in
    flight, the flag set and the returned promise pending. *)
Theorem C8_started_within_call (evs : list event) (f : work) :
  let w := run evs init in
  isRunning (this w) = false →
  let id := calls w in
  let w' := step w (Execute f) in
  block_trace w (Execute f)
  = [Push id; Shift id; Invoke id] ++
    match f with ReturnsPromise => [] | Throws e => [Reject id e] end ++
    [Return id] ∧
  position (Invoke id) (block_trace w (Execute f)) = Some 2 ∧
  (∃ r, position (Return id) (block_trace w (Execute f)) = Some r ∧ 2 < r) ∧
  (f = ReturnsPromise →
   awaiting w' = [id] ∧ isRunning (this w') = true ∧ promises w' !! id = None).
Proof.
  cbv zeta. intros Hr. pose proof (Inv_run evs) as HI.
  assert (Hb : block_trace (run evs init) (Execute f)
               = [Push (calls (run evs init)); Shift (calls (run evs init));
                  Invoke (calls (run evs init))] ++
                 match f with
                 | ReturnsPromise => []
                 | Throws e => [Reject (calls (run evs init)) e]
                 end ++ [Return (calls (run evs init))]).
  { unfold block_trace. rewrite step_Execute, (execute_idle _ f HI Hr). simpl.
    by rewrite drop_app_length. }
  rewrite Hb, step_Execute, (execute_idle _ f HI Hr).
  split; [done|]. split; [|split].
  - cbn [app]. by rewrite !position_later, position_here by done.
  - destruct f; cbn [app]; [exists 4|exists 3];
      (split; [by rewrite !position_later, position_here by done|lia]).
  - intros ->. simpl. split; [done|]. split; [done|].
    apply (core_open _ (proj1 HI)). left.
    pose proof (core_fifo _ (proj1 HI)) as Hf.
    apply fifo_prefix in Hf as (_ & _ & Hle). done.
Qed.

Lemma C8_started_within_call_witness :
  isRunning (this (run [] init)) = false ∧
  block_trace (run [] init) (Execute ReturnsPromise)
  = [Push 0; Shift 0; Invoke 0; Return 0].
Proof.
  split; [done|].
  exact (proj1 (C8_started_within_call [] ReturnsPromise eq_refl)).
Defined.

(** C9.  Whenever [processQueue] reaches a wrapper whose work throws
    before returning a promise, the world comes out as if the work had
    returned a promise, that promise had rejected with the thrown error and
    the wrapper had resumed: the same statements in the same order, the
    same instance, the same promises.  The promise of the call, pending
    until then, is rejected with the thrown error; the wrapper is removed
    and [processQueue] goes on with the rest of the queue, starting its
    head if there is one.  In particular a throwing work submitted to an
    idle instance leaves the instance idle, with its promise rejected for
    good. *)
Theorem C9_sync_throw (evs : list event) (e : value) :
  (∀ u id rest, id ∉ awaiting u →
     processQueue_on (Wrapper id (Throws e) :: rest) u
     = resume id (Rejected e)
         (processQueue_on (Wrapper id ReturnsPromise :: rest) u)) ∧
  (∀ u id rest, promises u !! id = None →
     promises (processQueue_on (Wrapper id (Throws e) :: rest) u) !! id
     = Some (Rejected e)) ∧
  (∀ u id rest, ∃ j,
     (rest ≠ [] → 0 < j) ∧
     queue (this (processQueue_on (Wrapper id (Throws e) :: rest) u)) = drop j rest ∧
     invoked (trace (processQueue_on (Wrapper id (Throws e) :: rest) u))
     = invoked (trace u) ++ id :: map wid (take j rest)) ∧
  let w := run evs init in
  (isRunning (this w) = false →
   let w' := step w (Execute (Throws e)) in
   promises w' !! calls w = Some (Rejected e) ∧
   rejects (calls w) (trace w') = 1 ∧
   this w' = constructor ∧ awaiting w' = [] ∧
   ∀ evs', promises (run evs' w') !! calls w = Some (Rejected e)).
Proof.
  split; [intros; by apply throw_as_rejection|].
  split; [intros; by apply throw_rejects|].
  split.
  { intros u id rest. simpl.
    destruct (processQueue_on_prefix rest
      (reject id e (log (Invoke id) (log (Shift id) (set_this (Instance rest true) u)))))
      as (j & _ & Hj & Hq & Hi).
    exists j. split; [done|]. split; [done|].
    rewrite Hi. simpl. rewrite !invoked_app. simpl.
    by rewrite !app_nil_r, <- app_assoc. }
  cbv zeta. intros Hr. pose proof (Inv_run evs) as HI.
  rewrite step_Execute, (execute_idle _ _ HI Hr). simpl.
  assert (Hle : started (run evs init) ≤ calls (run evs init)).
  { pose proof (core_fifo _ (proj1 HI)) as Hf.
    by apply fifo_prefix in Hf as (_ & _ & Hle). }
  destruct (core_open _ (proj1 HI) (calls (run evs init))) as [Hs Hp]; [by left|].
  assert (Hp' : settle (calls (run evs init)) (Rejected e) (promises (run evs init))
                !! calls (run evs init) = Some (Rejected e))
    by (by apply settle_lookup_eq).
  split; [done|]. split; [|split; [done|split; [done|]]].
  - rewrite rejects_app. simpl. rewrite decide_True by done.
    unfold signals in Hs. lia.
  - intros evs'. by apply run_stable.
Qed.

(** C10.  After any run of blocks, for every call [id]: [resolve] and
    [reject] of its promise have been called at most once together, so
    never both and never one of them twice; they have been called exactly
    once precisely when the work was started and its wrapper is no longer
    in flight, which is precisely when the promise is settled; when the
    wrapper in flight resumes on a value it calls [resolve] once and
    [reject] never, on an error [reject] once and [resolve] never; and
    once the works in flight have settled in turn, every work submitted
    by the run (call number [id] for the [id]-th [Execute] of the run,
    counted from 0) has been signalled exactly once. *)
Theorem C10_signalled_once (evs : list event) (id : nat) :
  let w := run evs init in
  resolves id (trace w) + rejects id (trace w) ≤ 1 ∧
  (resolves id (trace w) + rejects id (trace w) = 1
   ↔ id ∈ invoked (trace w) ∧ id ∉ awaiting w) ∧
  (resolves id (trace w) + rejects id (trace w) = 1
   ↔ is_Some (promises w !! id)) ∧
  (∀ o, id ∈ awaiting w →
     let w' := step w (Settle id o) in
     resolves id (trace w') = match o with Fulfilled _ => 1 | Rejected _ => 0 end ∧
     rejects id (trace w') = match o with Fulfilled _ => 0 | Rejected _ => 1 end) ∧
  (∀ outcome, id < length (submitted evs) →
     let w' := settle_in_turn outcome (backlog w) w in
     resolves id (trace w') + rejects id (trace w') = 1).
Proof.
  cbv zeta. pose proof (Inv_run evs) as HI.
  destruct (Inv_signals _ id HI) as (H1 & H2 & H3). unfold signals in *.
  split; [done|]. split; [done|]. split; [done|]. split.
  - intros o Hin. rewrite step_Settle by done.
    pose proof (Inv_resume id o _ HI Hin) as HI'.
    destruct (Inv_signals _ id HI') as (H1' & _ & _). unfold signals in H1'.
    unfold resume, processQueue in *.
    destruct (processQueue_on_trace
      (queue (this (deliver id o (set_awaiting (filter (λ j, j ≠ id)
         (awaiting (run evs init))) (run evs init)))))
      (deliver id o (set_awaiting (filter (λ j, j ≠ id)
         (awaiting (run evs init))) (run evs init)))) as [l Hl].
    rewrite Hl in *. rewrite deliver_trace in *.
    rewrite !resolves_app, !rejects_app in *.
    destruct o; simpl in *; rewrite decide_True in * by done; lia.
  - intros outcome Hid. rewrite <- calls_run in Hid.
    destruct (settle_in_turn_spec outcome (backlog (run evs init)) (run evs init) HI)
      as (HI' & Ha' & Hc'); [done|].
    destruct (Inv_signals _ id HI') as (_ & H2' & _). unfold signals in H2'.
    apply H2'. rewrite (Inv_all_started _ HI' Ha'), Hc', Ha'.
    split; [apply elem_of_seq; lia|apply not_elem_of_nil].
Qed.

(** Three works submitted in one go, the second one throwing: once the
    works in flight have settled, the third has been signalled once. *)
Lemma C10_signalled_once_witness :
  2 < length (submitted [Execute ReturnsPromise; Execute (Throws (VNumber 3));
                         Execute ReturnsPromise]) ∧
  resolves 2 (trace (settle_in_turn (λ _, Fulfilled VUndefined) 3
                       (run [Execute ReturnsPromise; Execute (Throws (VNumber 3));
                             Execute ReturnsPromise] init)))
  + rejects 2 (trace (settle_in_turn (λ _, Fulfilled VUndefined) 3
                        (run [Execute ReturnsPromise; Execute (Throws (VNumber 3));
                              Execute ReturnsPromise] init)))
  = 1.
Proof.
  split; [simpl; lia|].
  refine (proj2 (proj2 (proj2 (proj2 (C10_signalled_once
    [Execute ReturnsPromise; Execute (Throws (VNumber 3)); Execute ReturnsPromise] 2))))
    (λ _, Fulfilled VUndefined) _).
  simpl. lia.
Defined.

(** * Further properties of the class *)

(** ** Signals follow the starting order *)

Lemma signalled_app tr1 tr2 :
  signalled (tr1 ++ tr2) = signalled tr1 ++ signalled tr2.
Proof.
  induction tr1 as [|a tr1 IH]; [done|].
  destruct a; simpl; by rewrite IH.
Qed.

Lemma occupancy_signalled tr cur c :
  occupancy cur tr = Some c →
  option_list cur ++ invoked tr = signalled tr ++ option_list c.
Proof.
  revert cur. induction tr as [|a tr IH]; intros cur H; simpl in H.
  - injection H as <-. simpl. by rewrite app_nil_r.
  - destruct a as [i|i|i|i v|i e|i]; simpl; try (by apply IH).
    + destruct cur; [done|]. by apply IH in H.
    + destruct cur as [j|]; [|done]. case_decide; [subst|done].
      apply IH in H. simpl in *. by rewrite H.
    + destruct cur as [j|]; [|done]. case_decide; [subst|done].
      apply IH in H. simpl in *. by rewrite H.
Qed.

Lemma Inv_invoked_signalled w :
  Inv w → invoked (trace w) = signalled (trace w) ++ awaiting w.
Proof.
  intros [HC _]. pose proof (core_occupancy _ HC) as Ho.
  apply occupancy_signalled in Ho. simpl in Ho. rewrite Ho. f_equal.
  by destruct (core_awaiting _ HC) as [->|[_ ->]].
Qed.

(** X2.  After any run of blocks the works started are the works
    signalled, in the same order, followed by the work in flight if there
    is one; the calls signalled are [0, 1, ..., m-1] in that order; a
    promise is settled exactly when its call was signalled; so the settled
    promises are those of an initial segment of the calls: outcomes are
    delivered in submission order. *)
Theorem X2_completion_order (evs : list event) :
  let w := run evs init in
  invoked (trace w) = signalled (trace w) ++ awaiting w ∧
  signalled (trace w) = seq 0 (length (signalled (trace w))) ∧
  (∀ i, is_Some (promises w !! i) ↔ i ∈ signalled (trace w)) ∧
  (∀ i j, i ≤ j → is_Some (promises w !! j) → is_Some (promises w !! i)).
Proof.
  cbv zeta. pose proof (Inv_run evs) as HI.
  pose proof (Inv_invoked_signalled _ HI) as His.
  pose proof (core_fifo _ (proj1 HI)) as Hf.
  rewrite His, <- app_assoc in Hf.
  pose proof (fifo_prefix _ _ _ Hf) as (Hs & _ & _).
  assert (Hnd : NoDup (signalled (trace (run evs init)) ++ awaiting (run evs init))).
  { rewrite <- His. pose proof (core_fifo _ (proj1 HI)) as Hf'.
    apply fifo_prefix in Hf' as [-> _]. apply NoDup_seq. }
  assert (Hiff : ∀ i, is_Some (promises (run evs init) !! i)
                      ↔ i ∈ signalled (trace (run evs init))).
  { intros i. destruct (Inv_signals _ i HI) as (_ & H2 & H3).
    rewrite <- H3, H2, His, elem_of_app. apply NoDup_app in Hnd as (_ & Hd & _).
    split; [intros [[?|?] ?]; done|]. intros Hi. split; [by left|by apply Hd]. }
  split; [done|]. split; [done|]. split; [done|].
  intros i j Hij Hj. apply Hiff. apply Hiff in Hj.
  rewrite Hs in Hj |- *. apply elem_of_seq in Hj. apply elem_of_seq. lia.
Qed.

(** ** A work that does not settle holds everything behind it *)

Lemma busy_run u id evs :
  isRunning (this u) = true → awaiting u = [id] →
  (∀ o, Settle id o ∉ evs) →
  awaiting (run evs u) = [id] ∧ isRunning (this (run evs u)) = true ∧
  invoked (trace (run evs u)) = invoked (trace u) ∧
  signalled (trace (run evs u)) = signalled (trace u) ∧
  promises (run evs u) = promises u ∧
  queue (this (run evs u))
  = queue (this u) ++ imap (λ k f, Wrapper (calls u + k) f) (submitted evs).
Proof.
  revert u. induction evs as [|ev evs IH]; intros u Hr Ha Hn.
  - simpl. by rewrite app_nil_r.
  - assert (Hn' : ∀ o, Settle id o ∉ evs)
      by (intros o Ho; apply (Hn o); by right).
    destruct ev as [f|j o]; simpl run.
    + rewrite (execute_busy u f Hr).
      destruct (IH (World (Instance (queue (this u) ++ [Wrapper (calls u) f]) true)
                     (awaiting u) (promises u) (S (calls u))
                     (trace u ++ [Push (calls u); Return (calls u)])))
        as (H1 & H2 & H3 & H4 & H5 & H6); [done|done|done|].
      rewrite H1, H2, H3, H4, H5, H6. simpl.
      rewrite invoked_app, signalled_app. simpl. rewrite !app_nil_r.
      repeat split. rewrite <- app_assoc. simpl. rewrite Nat.add_0_r.
      do 2 f_equal. apply imap_ext. intros k x _. simpl. f_equal. lia.
    + assert (j ≠ id) by (intros ->; apply (Hn o); by left).
      rewrite Ha. rewrite decide_False by (by intros ?%list_elem_of_singleton).
      by apply IH.
Qed.

(** X1.  There is no timeout and no cancellation.  While the work of call
    [id] is in flight and the environment does not settle it, whatever
    else happens (any number of submissions), no other work is started, no
    signal is sent, no promise settles and the flag stays set; every
    submission made meanwhile is only appended to the queue, in submission
    order. *)
Theorem X1_head_of_line_blocking (evs evs' : list event) (id : nat) :
  let w := run evs init in
  awaiting w = [id] →
  (∀ o, Settle id o ∉ evs') →
  let w' := run evs' w in
  awaiting w' = [id] ∧ isRunning (this w') = true ∧
  invoked (trace w') = invoked (trace w) ∧
  signalled (trace w') = signalled (trace w) ∧
  promises w' = promises w ∧
  (∀ j, calls w ≤ j → promises w' !! j = None) ∧
  queue (this w')
  = queue (this w) ++ imap (λ k f, Wrapper (calls w + k) f) (submitted evs').
Proof.
  cbv zeta. intros Ha Hn. pose proof (Inv_run evs) as HI.
  assert (Hr : isRunning (this (run evs init)) = true)
    by (apply Inv_flag; [done|by rewrite Ha]).
  destruct (busy_run _ id evs' Hr Ha Hn) as (H1 & H2 & H3 & H4 & H5 & H6).
  repeat (split; [done|]). split; [|done].
  intros j Hj. rewrite H5. apply (core_open _ (proj1 HI)). left.
  pose proof (core_fifo _ (proj1 HI)) as Hf.
  apply fifo_prefix in Hf as (_ & _ & Hle). unfold started. lia.
Qed.

Lemma X1_head_of_line_blocking_witness :
  awaiting (run [Execute ReturnsPromise] init) = [0] ∧
  invoked (trace (run [Execute ReturnsPromise; Execute (Throws (VNumber 1));
                       Settle 1 (Fulfilled VUndefined); Execute ReturnsPromise] init))
  = [0].
Proof.
  split; [done|].
  refine (proj1 (proj2 (proj2 (X1_head_of_line_blocking [Execute ReturnsPromise]
    [Execute (Throws (VNumber 1)); Settle 1 (Fulfilled VUndefined);
     Execute ReturnsPromise] 0 eq_refl _)))).
  intros o Ho. repeat (apply elem_of_cons in Ho as [Ho|Ho]; [discriminate|]).
  by apply elem_of_nil in Ho.
Defined.

(** ** How far one call of [processQueue] gets *)

Lemma processQueue_on_extent q w :
  let k := leading_throws q in
  let u := processQueue_on q w in
  queue (this u) = drop (S k) q ∧
  isRunning (this u) = bool_decide (k < length q) ∧
  awaiting u = awaiting w ++ match q !! k with Some fn => [wid fn] | None => [] end ∧
  invoked (trace u) = invoked (trace w) ++ map wid (take (S k) q) ∧
  signalled (trace u) = signalled (trace w) ++ map wid (take k q) ∧
  calls u = calls w.
Proof.
  cbv zeta. revert w. induction q as [|[id [e|]] rest IH]; intros w.
  - simpl. by rewrite !app_nil_r.
  - simpl processQueue_on. simpl leading_throws.
    destruct (IH (reject id e
      (log (Invoke id) (log (Shift id) (set_this (Instance rest true) w)))))
      as (H1 & H2 & H3 & H4 & H5 & H6).
    rewrite H1, H2, H3, H4, H5, H6. simpl.
    rewrite !invoked_app, !signalled_app. simpl. rewrite !app_nil_r.
    rewrite <- !app_assoc. simpl.
    repeat split. apply bool_decide_ext. lia.
  - simpl. rewrite !invoked_app, !signalled_app. simpl.
    rewrite ?app_nil_r, ?take_0, ?drop_0. simpl. rewrite ?app_nil_r.
    repeat split.
Qed.

(** X5.  One call of [processQueue] starts the works at the head of the
    queue that throw before returning a promise, signalling each, and then
    the first work that returns a promise, on which it stops with the flag
    set and that work in flight; it starts nothing behind it.  When every
    queued work throws, or the queue is empty, it empties the queue and
    clears the flag. *)
Theorem X5_processQueue_extent (w : world) :
  let q := queue (this w) in
  let k := leading_throws q in
  let u := processQueue w in
  queue (this u) = drop (S k) q ∧
  isRunning (this u) = bool_decide (k < length q) ∧
  awaiting u = awaiting w ++ match q !! k with Some fn => [wid fn] | None => [] end ∧
  invoked (trace u) = invoked (trace w) ++ map wid (take (S k) q) ∧
  signalled (trace u) = signalled (trace w) ++ map wid (take k q) ∧
  (∀ fn, q !! k = Some fn → asyncFunction fn = ReturnsPromise) ∧
  (∀ i fn, i < k → q !! i = Some fn → ∃ e, asyncFunction fn = Throws e).
Proof.
  cbv zeta. unfold processQueue.
  destruct (processQueue_on_extent (queue (this w)) w) as (H1 & H2 & H3 & H4 & H5 & _).
  repeat (split; [done|]). clear. split.
  - induction (queue (this w)) as [|[id [e|]] rest IH]; intros fn H; simpl in *;
      [done|by apply IH|]. by injection H as <-.
  - induction (queue (this w)) as [|[id [e|]] rest IH]; intros i fn Hi H; simpl in *;
      [done| |lia].
    destruct i as [|i]; simpl in H; [injection H as <-; eauto|].
    apply (IH i); [lia|done].
Qed.

(** ** Where a settled promise has its outcome from *)

Lemma processQueue_on_awaiting_origin q w id :
  id ∈ awaiting (processQueue_on q w) →
  id ∈ awaiting w ∨ Wrapper id ReturnsPromise ∈ q.
Proof.
  revert w. induction q as [|[j [e|]] rest IH]; intros w H; simpl in H.
  - by left.
  - apply IH in H as [H|H]; [by left|]. right. by right.
  - apply elem_of_app in H as [H|H]; [by left|].
    apply list_elem_of_singleton in H as ->. right. by left.
Qed.

Lemma step_awaiting_origin w ev id :
  id ∈ awaiting (step w ev) →
  id ∈ awaiting w ∨ Wrapper id ReturnsPromise ∈ block_queue w ev.
Proof.
  destruct ev as [f|j o]; unfold block_queue.
  - rewrite step_Execute. unfold execute. simpl.
    destruct (isRunning (this w)); simpl; [by left|].
    intros H. apply processQueue_on_awaiting_origin in H as [H|H];
      [left; exact H|right; exact H].
  - simpl step. rewrite app_nil_r. case_decide as Hj; [|by left].
    intros H. unfold resume, processQueue in H.
    rewrite deliver_this in H. simpl in H.
    apply processQueue_on_awaiting_origin in H as [H|H]; [|by right].
    rewrite deliver_awaiting in H. simpl in H.
    apply list_elem_of_filter in H as [_ H]. by left.
Qed.

Lemma step_promise_origin w ev i c :
  promises (step w ev) !! i = Some c →
  promises w !! i = Some c ∨
  (∃ e, c = Rejected e ∧ Wrapper i (Throws e) ∈ block_queue w ev) ∨
  (ev = Settle i c ∧ i ∈ awaiting w).
Proof.
  destruct ev as [f|j o]; unfold block_queue.
  - rewrite step_Execute. unfold execute. simpl.
    destruct (isRunning (this w)); simpl; [by left|].
    intros H. apply processQueue_on_origin in H as [H|H]; [by left|].
    right. by left.
  - simpl step. rewrite app_nil_r. case_decide as Hin; [|by left].
    intros H. unfold resume, processQueue in H.
    rewrite deliver_this in H. simpl in H.
    apply processQueue_on_origin in H as [H|H]; [|right; by left].
    rewrite deliver_promises in H. simpl in H.
    destruct (decide (j = i)) as [->|Hne].
    + destruct (promises w !! i) as [c'|] eqn:E.
      * left. by rewrite (settle_stable i i o c') in H.
      * rewrite settle_lookup_eq in H by done. injection H as ->.
        right. by right.
    + rewrite settle_lookup_ne in H by done. by left.
Qed.

Lemma block_queue_member evs ev j f :
  Wrapper j f ∈ block_queue (run evs init) ev →
  submitted (evs ++ [ev]) !! j = Some f.
Proof.
  unfold block_queue. rewrite submitted_app. intros H.
  apply elem_of_app in H as [H|H].
  - apply lookup_app_l_Some. rewrite queue_run in H.
    apply (subseteq_drop _ _ _) in H.
    apply elem_of_lookup_imap in H as (i & x & Heq & Hl).
    by injection Heq as -> ->.
  - destruct ev as [g|]; [|by apply elem_of_nil in H].
    apply list_elem_of_singleton in H. injection H as -> ->.
    rewrite calls_run. simpl. by rewrite list_lookup_middle.
Qed.

(** A wrapper in flight wraps a work that returned a promise. *)
Lemma in_flight_returns evs id :
  id ∈ awaiting (run evs init) → submitted evs !! id = Some ReturnsPromise.
Proof.
  revert id. induction evs as [|ev evs IH] using rev_ind; intros id H.
  - by apply elem_of_nil in H.
  - rewrite run_snoc in H. apply step_awaiting_origin in H as [H|H].
    + rewrite submitted_app. by apply lookup_app_l_Some, IH.
    + by apply block_queue_member.
Qed.

Lemma promise_origin_from evs evs' i c :
  promises (run (evs ++ evs') init) !! i = Some c →
  promises (run evs init) !! i = Some c ∨
  ∃ f, submitted (evs ++ evs') !! i = Some f ∧
       match f with
       | Throws e => c = Rejected e
       | ReturnsPromise => Settle i c ∈ evs'
       end.
Proof.
  induction evs' as [|ev evs' IH] using rev_ind; intros H.
  - rewrite app_nil_r in H. by left.
  - rewrite app_assoc, run_snoc in H.
    apply step_promise_origin in H as [H|[(e & -> & H)|[-> H]]].
    + apply IH in H as [H|(f & Hf & H)]; [by left|]. right. exists f.
      split; [rewrite app_assoc, submitted_app; by apply lookup_app_l_Some|].
      destruct f; [done|]. apply elem_of_app. by left.
    + right. exists (Throws e). split; [|done].
      rewrite app_assoc. by apply block_queue_member.
    + right. exists ReturnsPromise. split.
      * rewrite app_assoc, submitted_app. apply lookup_app_l_Some.
        by apply in_flight_returns.
      * apply elem_of_app. right. by left.
Qed.

(** X3.  Every settled promise holds the outcome of the work of its own
    call and nothing else: when that work throws before returning a
    promise, the promise is rejected with the thrown error; when it
    returns a promise, the promise holds an outcome with which the
    environment settled the promise of that very work. *)
Theorem X3_settled_with_own_outcome (evs : list event) (i : nat) (c : settlement) :
  promises (run evs init) !! i = Some c →
  ∃ f, submitted evs !! i = Some f ∧
       match f with
       | Throws e => c = Rejected e
       | ReturnsPromise => Settle i c ∈ evs
       end.
Proof.
  intros H. destruct (promise_origin_from [] evs i c H) as [H'|H']; [|done].
  simpl in H'. by rewrite lookup_empty in H'.
Qed.

Lemma X3_settled_with_own_outcome_witness :
  promises (run [Execute ReturnsPromise; Execute (Throws (VString "late"));
                 Settle 0 (Fulfilled (VNumber 7))] init) !! 1
  = Some (Rejected (VString "late")) ∧
  ∃ f, submitted [Execute ReturnsPromise; Execute (Throws (VString "late"));
                  Settle 0 (Fulfilled (VNumber 7))] !! 1 = Some f ∧
       match f with
       | Throws e => Rejected (VString "late") = Rejected e
       | ReturnsPromise =>
           Settle 1 (Rejected (VString "late"))
           ∈ [Execute ReturnsPromise; Execute (Throws (VString "late"));
              Settle 0 (Fulfilled (VNumber 7))]
       end.
Proof.
  split; [done|].
  exact (X3_settled_with_own_outcome
           [Execute ReturnsPromise; Execute (Throws (VString "late"));
            Settle 0 (Fulfilled (VNumber 7))] 1 (Rejected (VString "late")) eq_refl).
Defined.

(** X4.  A work that throws before returning a promise is never in
    flight between blocks, and the promise of its call is pending until
    the work is started and rejected with the thrown error from then on:
    its failure reaches the caller in the block that starts the work, not
    in the call that submits it unless that call starts it. *)
Theorem X4_thrower_settled_when_started (evs : list event) (i : nat) (e : value) :
  submitted evs !! i = Some (Throws e) →
  (i ∉ awaiting (run evs init)) ∧
  (i ∈ invoked (trace (run evs init)) →
   promises (run evs init) !! i = Some (Rejected e)) ∧
  (i ∉ invoked (trace (run evs init)) → promises (run evs init) !! i = None).
Proof.
  cbv zeta. intros Hs. pose proof (Inv_run evs) as HI.
  assert (Hna : i ∉ awaiting (run evs init)).
  { intros Hin. apply in_flight_returns in Hin. congruence. }
  destruct (Inv_signals _ i HI) as (_ & H2 & H3).
  split; [done|]. split.
  - intros Hin. assert (Hsome : is_Some (promises (run evs init) !! i))
      by (apply H3, H2; done).
    destruct Hsome as [c Hc].
    destruct (promise_origin_from [] evs i c Hc) as [Hm|(f & Hf & Hm)];
      [simpl in Hm; by rewrite lookup_empty in Hm|].
    simpl in Hf. rewrite Hs in Hf. injection Hf as <-. by rewrite Hc, Hm.
  - intros Hn. destruct (promises (run evs init) !! i) eqn:E; [|done].
    exfalso. apply Hn. apply H2, H3. eauto.
Qed.

Lemma X4_thrower_settled_when_started_witness :
  submitted [Execute ReturnsPromise; Execute (Throws (VNumber 3))] !! 1
  = Some (Throws (VNumber 3)) ∧
  promises (run [Execute ReturnsPromise; Execute (Throws (VNumber 3))] init) !! 1
  = None.
Proof.
  split; [done|].
  refine (proj2 (proj2 (X4_thrower_settled_when_started
    [Execute ReturnsPromise; Execute (Throws (VNumber 3))] 1 (VNumber 3) eq_refl)) _).
  intros H. repeat (apply elem_of_cons in H as [H|H]; [discriminate|]).
  by apply elem_of_nil in H.
Defined.

(** ** Every pending call gets its own outcome *)

Lemma settle_in_turn_run outcome n w :
  ∃ evs', settle_in_turn outcome n w = run evs' w ∧
          Forall (λ ev, ∃ id, ev = Settle id (outcome id)) evs'.
Proof.
  revert w. induction n as [|n IH]; intros w; [by exists []|].
  cbn [settle_in_turn]. destruct (awaiting w) as [|id l] eqn:Ha; [by exists []|].
  destruct (IH (step w (Settle id (outcome id)))) as (evs' & He & Hf).
  exists (Settle id (outcome id) :: evs'). split; [by rewrite He|].
  constructor; eauto.
Qed.

Lemma submitted_settles outcome evs :
  Forall (λ ev, ∃ id, ev = Settle id (outcome id)) evs → submitted evs = [].
Proof.
  induction 1 as [|ev evs [id ->] _ IH]; [done|]. done.
Qed.

(** X6.  Take any reachable world and any call [i] whose promise is still
    pending there, and let the works in flight settle in turn, the work of
    call [j] as [outcome j].  Then the promise of call [i] ends up holding
    exactly what its own work produced: the thrown error when the work
    throws before returning a promise, and [outcome i] when it returns a
    promise.  The instance is then as new: empty queue, flag cleared. *)
Theorem X6_pending_call_gets_own_outcome
    (evs : list event) (outcome : nat → settlement) (i : nat) (f : work) :
  submitted evs !! i = Some f →
  promises (run evs init) !! i = None →
  let w' := settle_in_turn outcome (backlog (run evs init)) (run evs init) in
  promises w' !! i = Some (own_outcome f (outcome i)) ∧
  this w' = constructor ∧ awaiting w' = [].
Proof.
  cbv zeta. intros Hs Hp. pose proof (Inv_run evs) as HI.
  destruct (settle_in_turn_spec outcome (backlog (run evs init)) (run evs init) HI)
    as (HI' & Ha' & Hc'); [done|].
  destruct (settle_in_turn_run outcome (backlog (run evs init)) (run evs init))
    as (evs' & He & Hf).
  split; [|split; [|done]].
  - assert (Hsome : is_Some (promises (settle_in_turn outcome (backlog (run evs init))
                                         (run evs init)) !! i)).
    { destruct (Inv_signals _ i HI') as (_ & H2 & H3). apply H3, H2.
      rewrite (Inv_all_started _ HI' Ha'), Hc', Ha'.
      split; [|apply not_elem_of_nil]. apply elem_of_seq.
      rewrite calls_run. apply lookup_lt_Some in Hs. lia. }
    destruct Hsome as [c Hc]. rewrite Hc. f_equal.
    rewrite He, <- run_app in Hc.
    apply promise_origin_from in Hc as [Hc|(g & Hg & Hm)]; [congruence|].
    rewrite submitted_app, (submitted_settles outcome evs' Hf), app_nil_r in Hg.
    rewrite Hs in Hg. injection Hg as <-.
    destruct f as [e|]; [done|]. simpl.
    rewrite Forall_forall in Hf. apply Hf in Hm as [id Hid]. congruence.
  - destruct (Inv_idle _ HI' Ha') as [Hr Hq].
    unfold constructor.
    destruct (this (settle_in_turn outcome (backlog (run evs init)) (run evs init)));
      simpl in *. by subst.
Qed.

Lemma X6_pending_call_gets_own_outcome_witness :
  submitted [Execute ReturnsPromise; Execute (Throws (VNumber 3));
             Execute ReturnsPromise] !! 2 = Some ReturnsPromise ∧
  promises (settle_in_turn (λ j, Fulfilled (VNumber (Z.of_nat j))) 3
              (run [Execute ReturnsPromise; Execute (Throws (VNumber 3));
                    Execute ReturnsPromise] init)) !! 2
  = Some (Fulfilled (VNumber 2)).
Proof.
  split; [done|].
  exact (proj1 (X6_pending_call_gets_own_outcome
    [Execute ReturnsPromise; Execute (Throws (VNumber 3)); Execute ReturnsPromise]
    (λ j, Fulfilled (VNumber (Z.of_nat j))) 2 ReturnsPromise eq_refl eq_refl)).
Defined.

(** * Callers: the bodies run one at a time, in submission order *)

Lemma AllAsync_leading w : AllAsync w → leading_throws (queue (this w)) = 0.
Proof.
  unfold AllAsync. destruct (queue (this w)) as [|[id f] rest]; [done|].
  intros H. apply Forall_cons in H as [H _]. simpl in H. by subst.
Qed.

Lemma in_flight_number w id :
  Inv w → awaiting w = [id] → id = completed w ∧ id < calls w.
Proof.
  intros HI Ha. pose proof (Inv_invoked_signalled _ HI) as His.
  pose proof (core_fifo _ (proj1 HI)) as Hf.
  rewrite His, Ha, <- app_assoc in Hf. simpl in Hf.
  apply fifo_head in Hf. unfold completed. lia.
Qed.

Lemma idle_number w :
  Inv w → awaiting w = [] →
  completed w = calls w ∧ length (invoked (trace w)) = calls w.
Proof.
  intros HI Ha. pose proof (Inv_invoked_signalled _ HI) as His.
  rewrite Ha, app_nil_r in His. unfold completed. rewrite <- His.
  rewrite (Inv_all_started _ HI Ha). by rewrite length_seq.
Qed.

(** The resumption of the wrapper in flight when every queued work
    returns a promise: it signals, and starts the head of the queue if
    there is one. *)
Lemma resume_async w id o :
  Inv w → AllAsync w → awaiting w = [id] →
  let w' := resume id o w in
  signalled (trace w') = signalled (trace w) ++ [id] ∧
  calls w' = calls w ∧
  queue (this w') = drop 1 (queue (this w)) ∧
  awaiting w' = match queue (this w) with [] => [] | fn :: _ => [wid fn] end ∧
  invoked (trace w')
  = invoked (trace w) ++ match queue (this w) with [] => [] | fn :: _ => [wid fn] end.
Proof.
  cbv zeta. intros HI HA Ha. rewrite (resume_eq w id o Ha).
  unfold processQueue. rewrite deliver_this. simpl.
  destruct (processQueue_on_extent (queue (this w)) (deliver id o (set_awaiting [] w)))
    as (H1 & _ & H3 & H4 & H5 & H6).
  rewrite (AllAsync_leading w HA) in *.
  rewrite H1, H3, H4, H5, H6.
  rewrite deliver_trace, deliver_awaiting, deliver_calls, invoked_app, signalled_app,
    signal_invoked, take_0, !app_nil_r. simpl.
  split; [by destruct o|]. split; [done|]. split; [done|].
  by destruct (queue (this w)).
Qed.

Lemma execute_busy_facts w f :
  isRunning (this w) = true →
  completed (execute f w) = completed w ∧
  awaiting (execute f w) = awaiting w ∧
  invoked (trace (execute f w)) = invoked (trace w) ∧
  queue (this (execute f w)) = queue (this w) ++ [Wrapper (calls w) f] ∧
  calls (execute f w) = S (calls w).
Proof.
  intros Hr. rewrite (execute_busy w f Hr). unfold completed. simpl.
  rewrite invoked_app, signalled_app. simpl. by rewrite !app_nil_r.
Qed.

Lemma execute_idle_facts w :
  Inv w → isRunning (this w) = false →
  completed (execute ReturnsPromise w) = completed w ∧
  awaiting (execute ReturnsPromise w) = [calls w] ∧
  invoked (trace (execute ReturnsPromise w)) = invoked (trace w) ++ [calls w] ∧
  queue (this (execute ReturnsPromise w)) = [] ∧
  calls (execute ReturnsPromise w) = S (calls w).
Proof.
  intros HI Hr. rewrite (execute_idle w _ HI Hr). unfold completed. simpl.
  rewrite invoked_app, signalled_app. simpl. by rewrite !app_nil_r.
Qed.

Lemma AllAsync_drop w w' n :
  AllAsync w → queue (this w') = drop n (queue (this w)) → AllAsync w'.
Proof. unfold AllAsync. intros H ->. by apply Forall_drop. Qed.

Lemma cstep_wake_idle K w s args id :
  id ∉ awaiting w → cstep K (CWorld w s args) (Wake id) = CWorld w s args.
Proof. intros H. simpl. by rewrite decide_False by done. Qed.

Lemma cstep_wake_more K w s args id a s1 :
  id ∈ awaiting w → args !! id = Some a → wake K id a s = (s1, None) →
  cstep K (CWorld w s args) (Wake id) = CWorld w s1 args.
Proof. intros H Ha Hw. simpl. rewrite decide_True by done. by rewrite Ha, Hw. Qed.

Lemma cstep_wake_end K w s args id a s1 o :
  id ∈ awaiting w → args !! id = Some a → wake K id a s = (s1, Some o) →
  cstep K (CWorld w s args) (Wake id)
  = CWorld (resume id o w) (enter_invoked K w (resume id o w) args s1) args.
Proof.
  intros H Ha Hw. simpl. rewrite decide_True by done. rewrite Ha, Hw.
  by rewrite !decide_True by done.
Qed.

Lemma Serial_current K (c : cworld K) :
  Inv (cw_world c) → calls (cw_world c) = length (cw_args c) →
  current c = None ↔ awaiting (cw_world c) = [].
Proof.
  intros HI Hc. unfold current. split; [|by intros ->].
  destruct (awaiting (cw_world c)) as [|id l] eqn:Ha; [done|].
  assert (Hin : id ∈ awaiting (cw_world c)) by (rewrite Ha; by left).
  pose proof (awaiting_singleton _ id (proj1 HI) Hin) as Ha1.
  assert (Hlt : id < calls (cw_world c)) by (by apply in_flight_number).
  simpl. intros Hn. apply lookup_ge_None in Hn. lia.
Qed.

Lemma Serial_cinit K P s0 : P [] None s0 → Serial K P (cinit K s0).
Proof.
  intros H0. split; [apply Inv_init|]. split; [constructor|]. by split.
Qed.

Section Serial.
Context (K : client).
Context (P : list (carg K) → option (carg K) → cstate K → Prop).
Hypothesis P_enter : ∀ done a s,
  P done None s → P done (Some a) (enter K (length done) a s).
Hypothesis P_wake : ∀ done a s s',
  P done (Some a) s → wake K (length done) a s = (s', None) →
  P done (Some a) s'.
Hypothesis P_end : ∀ done a s s' o,
  P done (Some a) s → wake K (length done) a s = (s', Some o) →
  P (done ++ [a]) None s'.

Lemma Serial_submit c a : Serial K P c → Serial K P (cstep K c (Submit a)).
Proof.
  destruct c as [w s args]. intros (HI & HA & Hc & HP).
  unfold Serial, current in *. cbn [cstep cw_world cw_state cw_args] in *.
  rewrite ?step_Execute. unfold enter_invoked.
  pose proof (Inv_execute ReturnsPromise w HI) as HI'.
  split; [done|].
  destruct (isRunning (this w)) eqn:Hr.
  - destruct (execute_busy_facts w ReturnsPromise Hr) as (H1 & H2 & H3 & H4 & H5).
    rewrite H1, H2, H3, H5, drop_all. simpl foldl.
    split; [unfold AllAsync; rewrite H4; apply Forall_app; split;
            [done|by constructor]|].
    split; [rewrite length_app; simpl; lia|].
    assert (Hne : awaiting w ≠ []) by (by apply Inv_flag).
    destruct (awaiting w) as [|id l] eqn:Ha; [done|].
    assert (Hin : id ∈ awaiting w) by (rewrite Ha; by left).
    pose proof (awaiting_singleton w id (proj1 HI) Hin) as Ha1.
    destruct (in_flight_number w id HI Ha1) as [Hid Hlt].
    rewrite take_app_le by lia. simpl in *.
    rewrite lookup_app_l by lia. done.
  - assert (Ha : awaiting w = []).
    { destruct (awaiting w) eqn:E; [done|].
      assert (isRunning (this w) = true) by (apply Inv_flag; [done|by rewrite E]).
      congruence. }
    destruct (idle_number w HI Ha) as [Hm Hl].
    destruct (execute_idle_facts w HI Hr) as (H1 & H2 & H3 & H4 & H5).
    rewrite H1, H2, H3, H5, drop_app_length. simpl foldl. simpl head.
    split; [unfold AllAsync; rewrite H4; constructor|].
    split; [rewrite length_app; simpl; lia|].
    rewrite Hc. simpl. rewrite !list_lookup_middle by done.
    rewrite Hm, Hc, take_app_length.
    rewrite Ha in HP. simpl in HP.
    rewrite Hm, Hc, firstn_all in HP. by apply P_enter.
Qed.

Lemma Serial_wake c id : Serial K P c → Serial K P (cstep K c (Wake id)).
Proof.
  destruct c as [w s args]. intros (HI & HA & Hc & HP).
  destruct (decide (id ∈ awaiting w)) as [Hin|Hn];
    [|by rewrite cstep_wake_idle].
  pose proof (awaiting_singleton w id (proj1 HI) Hin) as Ha.
  destruct (in_flight_number w id HI Ha) as [Hid Hlt].
  cbn [cw_world cw_state cw_args] in *.
  destruct (lookup_lt_is_Some_2 args id) as [a Hargs]; [lia|].
  unfold current in HP. cbn [cw_world cw_args] in HP.
  rewrite Ha in HP. simpl in HP. rewrite Hargs in HP.
  assert (Hlen : length (take (completed w) args) = id)
    by (rewrite length_take; lia).
  destruct (wake K id a s) as [s1 [o|]] eqn:Hw.
  - rewrite (cstep_wake_end K w s args id a s1 o Hin Hargs Hw).
    destruct (resume_async w id o HI HA Ha) as (H1 & H2 & H3 & H4 & H5).
    pose proof (Inv_resume id o w HI Hin) as HI'.
    unfold Serial, current, enter_invoked. cbn [cw_world cw_state cw_args].
    split; [done|]. split; [by apply (AllAsync_drop w _ 1)|].
    split; [lia|].
    assert (Hm' : completed (resume id o w) = S id)
      by (unfold completed in *; rewrite H1, length_app; simpl; lia).
    rewrite Hm', H4, H5, drop_app_length.
    assert (HP1 : P (take (S id) args) None s1).
    { rewrite (take_S_r _ _ a) by done. rewrite <- Hid in HP.
      apply (P_end _ a s s1 o); [done|]. rewrite length_take.
      by rewrite Nat.min_l by lia. }
    destruct (queue (this w)) as [|fn rest] eqn:Hq; simpl; [done|].
    assert (Hfn : wid fn = S id ∧ S id < calls w).
    { assert (Ha' : awaiting (resume id o w) = [wid fn]) by done.
      destruct (in_flight_number _ _ HI' Ha') as [Hn Hl].
      rewrite Hm' in Hn. rewrite H2 in Hl. lia. }
    destruct Hfn as [Hfn Hlt']. rewrite Hfn.
    destruct (lookup_lt_is_Some_2 args (S id)) as [a' Ha']; [lia|].
    rewrite Ha'. simpl.
    assert (Hlen' : length (take (S id) args) = S id)
      by (rewrite length_take; lia).
    rewrite <- Hlen' at 2. by apply P_enter.
  - rewrite (cstep_wake_more K w s args id a s1 Hin Hargs Hw).
    unfold Serial, current. cbn [cw_world cw_state cw_args].
    rewrite Ha. simpl. rewrite Hargs.
    repeat (split; [done|]). apply (P_wake _ a s); [done|]. by rewrite Hlen.
Qed.

Lemma Serial_run evs c : Serial K P c → Serial K P (crun K evs c).
Proof.
  revert c. induction evs as [|ev evs IH]; intros c H; [done|].
  simpl. apply IH. destruct ev; [by apply Serial_submit|by apply Serial_wake].
Qed.
End Serial.

(** X7.  A caller may reason about its critical sections as if they ran
    one after the other.  Let [P] relate the arguments of the bodies that
    have ended, the argument of the body in flight and the caller's
    state.  If [P] is kept when a body is entered from a state in which no
    body is in flight, when the body in flight resumes and goes on, and
    when it resumes and ends, then [P] holds after every run of
    submissions and resumptions, with the bodies ended being the first
    calls in submission order and the body in flight the next one. *)
Theorem X7_bodies_run_serially (K : client)
    (P : list (carg K) → option (carg K) → cstate K → Prop)
    (evs : list (cevent K)) (s0 : cstate K) :
  (∀ done a s, P done None s → P done (Some a) (enter K (length done) a s)) →
  (∀ done a s s',
     P done (Some a) s → wake K (length done) a s = (s', None) →
     P done (Some a) s') →
  (∀ done a s s' o,
     P done (Some a) s → wake K (length done) a s = (s', Some o) →
     P (done ++ [a]) None s') →
  P [] None s0 →
  let c := crun K evs (cinit K s0) in
  P (take (completed (cw_world c)) (cw_args c)) (current c) (cw_state c) ∧
  calls (cw_world c) = length (cw_args c) ∧
  (current c = None ↔ awaiting (cw_world c) = []) ∧
  (awaiting (cw_world c) = [] → completed (cw_world c) = length (cw_args c)).
Proof.
  intros H1 H2 H3 H0. cbv zeta.
  destruct (Serial_run K P H1 H2 H3 evs (cinit K s0) (Serial_cinit K P s0 H0))
    as (HI & _ & Hc & HP).
  split; [done|]. split; [done|]. split; [by apply Serial_current|].
  intros Ha. rewrite <- Hc. by apply idle_number.
Qed.

(** ** execute.10 *)

Lemma flag_inv_enter done a s :
  flag_inv done None s → flag_inv done (Some a) (enter10 (length done) a s).
Proof.
  intros [Hf Hr]. unfold enter10. simpl in Hr. rewrite Hr. by split.
Qed.

Lemma flag_inv_wake done a s s' :
  flag_inv done (Some a) s → wake10 (length done) a s = (s', None) →
  flag_inv done (Some a) s'.
Proof. intros _ H. unfold wake10 in H. by case_decide. Qed.

Lemma flag_inv_end done a s s' o :
  flag_inv done (Some a) s → wake10 (length done) a s = (s', Some o) →
  flag_inv (done ++ [a]) None s'.
Proof.
  intros [Hf Hr] H. unfold wake10 in H. rewrite Hf in H.
  rewrite decide_False in H by apply not_elem_of_nil.
  injection H as <- <-. by split.
Qed.

Lemma X7_bodies_run_serially_witness :
  flag_inv [] None start10 ∧
  flag_inv [()] (Some ())
    (cw_state (crun client10
                 [Submit (K:=client10) (); Submit (K:=client10) (); Wake 0]
                 (cinit client10 start10))).
Proof.
  split; [done|].
  exact (proj1 (X7_bodies_run_serially client10 flag_inv
                  [Submit (K:=client10) (); Submit (K:=client10) (); Wake 0]
                  start10
                  flag_inv_enter flag_inv_wake flag_inv_end (conj eq_refl eq_refl))).
Defined.

(** X8.  The scenario of test execute.10, for any number of submissions
    and any order of submissions and timer expiries: no body ever finds
    the shared variable set when it is entered, so no [expect] fails; the
    variable is set exactly while a body is in flight; and at most one
    body is in flight. *)
Theorem X8_execute_10 (evs : list (cevent client10)) :
  let c := crun client10 evs (cinit client10 start10) in
  t_failed (cw_state c) = [] ∧
  (t_isRunning (cw_state c) = true ↔ awaiting (cw_world c) ≠ []) ∧
  length (awaiting (cw_world c)) ≤ 1.
Proof.
  cbv zeta.
  destruct (Serial_run client10 flag_inv flag_inv_enter flag_inv_wake flag_inv_end
              evs (cinit client10 start10)
              (Serial_cinit client10 flag_inv start10 (conj eq_refl eq_refl)))
    as (HI & _ & Hc & [Hf Hr]).
  pose proof (Serial_current client10 _ HI Hc) as Hcur.
  split; [done|]. split.
  - rewrite Hr.
    destruct (current (crun client10 evs (cinit client10 start10))) eqn:E.
    + split; [|done]. intros _ Ha. apply Hcur in Ha. congruence.
    + split; [done|]. intros Ha. exfalso. by apply Ha, Hcur.
  - destruct (core_awaiting _ (proj1 HI)) as [->|[_ ->]]; simpl; lia.
Qed.

(** ** execute.02 *)

Lemma log_of_snoc nums num :
  log_of (nums ++ [num]) = append_number (log_of nums) num.
Proof. unfold log_of. by rewrite foldl_app. Qed.

Example log_of_1_to_5 :
  log_of [1; 2; 3; 4; 5]
  = Some ("1" +:+ newline +:+ "2" +:+ newline +:+ "3" +:+ newline +:+ "4"
          +:+ newline +:+ "5").
Proof. vm_compute. reflexivity. Qed.

Lemma file_inv_enter done a s :
  file_inv done None s → file_inv done (Some a) (enter02 (length done) a s).
Proof.
  intros [Hf Hp]. split; [done|]. exists Accessing. simpl.
  rewrite Hp, insert_empty. by split.
Qed.

Lemma file_inv_wake done a s s' :
  file_inv done (Some a) s → wake02 (length done) a s = (s', None) →
  file_inv done (Some a) s'.
Proof.
  intros [Hf (ph & Hp & Ha & Hw)] H. unfold wake02 in H.
  rewrite Hp, lookup_singleton_eq in H.
  destruct ph; [|done|done]. injection H as <-.
  split; [done|]. simpl. rewrite insert_singleton_eq.
  destruct (t_file s) eqn:E.
  - exists Appending. split; [done|]. split; [eauto|done].
  - exists Writing. split; [done|]. by split.
Qed.

Lemma file_inv_end done a s s' o :
  file_inv done (Some a) s → wake02 (length done) a s = (s', Some o) →
  file_inv (done ++ [a]) None s'.
Proof.
  intros [Hf (ph & Hp & Ha & Hw)] H. unfold wake02 in H.
  rewrite Hp, lookup_singleton_eq in H.
  destruct ph; [done| |]; injection H as <- <-;
    (split; simpl; [rewrite log_of_snoc, <- Hf|by rewrite ?Hp, delete_singleton_eq]).
  - destruct (Ha eq_refl) as [content Hc]. by rewrite Hc.
  - by rewrite (Hw eq_refl).
Qed.

(** X9.  The scenario of test execute.02, for any numbers submitted and
    any order of submissions and completions of file operations: the file
    always holds exactly the numbers of the bodies that have ended, in
    submission order, the first written and the others appended each after
    a newline, as if the bodies had run one after the other; the body in
    flight is the only one under way.  So once no body is in flight the
    file lists every submitted number in order, whatever the schedule
    was; for the numbers 1 to 5 of the test that is the five numbers on
    five lines (line 112). *)
Theorem X9_execute_02 (evs : list (cevent client02)) :
  let c := crun client02 evs (cinit client02 start02) in
  t_file (cw_state c) = log_of (take (completed (cw_world c)) (cw_args c)) ∧
  (∀ id, is_Some (t_phase (cw_state c) !! id) → awaiting (cw_world c) = [id]) ∧
  (awaiting (cw_world c) = [] → t_file (cw_state c) = log_of (cw_args c)) ∧
  (awaiting (cw_world c) = [] → cw_args c = [1; 2; 3; 4; 5] →
   t_file (cw_state c)
   = Some ("1" +:+ newline +:+ "2" +:+ newline +:+ "3" +:+ newline +:+ "4"
           +:+ newline +:+ "5")).
Proof.
  cbv zeta.
  destruct (Serial_run client02 file_inv file_inv_enter file_inv_wake file_inv_end
              evs (cinit client02 start02)
              (Serial_cinit client02 file_inv start02 (conj eq_refl eq_refl)))
    as (HI & _ & Hc & [Hf Hp]).
  pose proof (Serial_current client02 _ HI Hc) as Hcur.
  assert (Hall : awaiting (cw_world (crun client02 evs (cinit client02 start02))) = []
                 → completed (cw_world (crun client02 evs (cinit client02 start02)))
                   = length (cw_args (crun client02 evs (cinit client02 start02))))
    by (intros Ha; rewrite <- Hc; by apply idle_number).
  split; [done|]. split.
  - intros id [ph Hid].
    destruct (current (crun client02 evs (cinit client02 start02))) eqn:E.
    + destruct Hp as (ph' & Hp & _). rewrite Hp in Hid.
      apply lookup_singleton_Some in Hid as [<- _].
      destruct (core_awaiting _ (proj1 HI)) as [Ha|[_ Ha]].
      * apply Hcur in Ha. congruence.
      * destruct (in_flight_number _ _ HI Ha) as [Hj Hlt].
        rewrite Ha. f_equal. rewrite length_take, Nat.min_l; [done|].
        etrans; [|apply Nat.eq_le_incl; exact Hc]. lia.
    + by rewrite Hp, lookup_empty in Hid.
  - assert (Hq : awaiting (cw_world (crun client02 evs (cinit client02 start02))) = []
                 → t_file (cw_state (crun client02 evs (cinit client02 start02)))
                   = log_of (cw_args (crun client02 evs (cinit client02 start02)))).
    { intros Ha. rewrite Hf, (Hall Ha). by rewrite firstn_all. }
    split; [done|]. intros Ha Hargs. rewrite (Hq Ha), Hargs. apply log_of_1_to_5.
Qed.

(** * The flag and the promises handed out *)

(** X10.  Between blocks the flag is cleared exactly when every promise
    handed out so far is settled: an idle instance owes nothing, and a
    busy one owes at least the outcome of the work in flight. *)
Theorem X10_idle_iff_all_settled (evs : list event) :
  let w := run evs init in
  isRunning (this w) = false ↔ ∀ i, i < calls w → is_Some (promises w !! i).
Proof.
  cbv zeta. pose proof (Inv_run evs) as HI. split.
  - intros Hr i Hi.
    assert (Ha : awaiting (run evs init) = []).
    { destruct (awaiting (run evs init)) eqn:E; [done|].
      assert (isRunning (this (run evs init)) = true)
        by (apply Inv_flag; [done|by rewrite E]).
      congruence. }
    destruct (Inv_signals _ i HI) as (_ & H2 & H3). apply H3, H2.
    rewrite (Inv_all_started _ HI Ha), Ha.
    split; [apply elem_of_seq; lia|apply not_elem_of_nil].
  - intros Hall. destruct (isRunning (this (run evs init))) eqn:Hr; [|done].
    exfalso. apply (Inv_flag _ HI) in Hr.
    destruct (core_awaiting _ (proj1 HI)) as [Ha|[_ Ha]]; [done|].
    destruct (in_flight_number _ _ HI Ha) as [_ Hlt].
    destruct (Hall _ Hlt) as [c Hc].
    destruct (core_open _ (proj1 HI) (pred (started (run evs init)))) as [_ Hn];
      [right; rewrite Ha; by left|].
    congruence.
Qed.

(** * Callers without the queue *)

Lemma rrun_app evs1 evs2 c : rrun (evs1 ++ evs2) c = rrun evs2 (rrun evs1 c).
Proof. apply foldl_app. Qed.








(** The five bodies of the test, every check performed before any body
    resumes: with the writes performed in the reverse of the call order
    the file is left with the number 1, with the writes performed in call
    order with the number 5. *)
Example race_leaves_1 :
  r_file (rrun ((Call <$> [1; 2; 3; 4; 5]) ++ (Perform <$> [0; 1; 2; 3; 4]) ++
                (Resume <$> [0; 1; 2; 3; 4]) ++ (Perform <$> [4; 3; 2; 1; 0]) ++
                (Resume <$> [0; 1; 2; 3; 4])) rstart)
  = Some "1".
Proof. by vm_compute. Qed.

Example race_leaves_5 :
  r_file (rrun ((Call <$> [1; 2; 3; 4; 5]) ++ (Perform <$> [0; 1; 2; 3; 4]) ++
                (Resume <$> [0; 1; 2; 3; 4]) ++ (Perform <$> [0; 1; 2; 3; 4]) ++
                (Resume <$> [4; 2; 0; 1; 3])) rstart)
  = Some "5".
Proof. by vm_compute. Qed.

